(** * Spherical-harmonic expansion of the Doppler operator

    A shallow embedding of the notebook [DopplerExpansion.ipynb]: the
    polynomial basis, the real spherical harmonics [Y], the change of basis
    matrix [A1], its inverse and the three conversions (1, x, x^2).

    The notebook computes with sympy expressions.  Every expression it
    builds is a finite sum of summands

        q * sqrt(r) * sqrt(pi)^e * x^a * y^b * z^c

    with [q] a rational, [r] a square-free positive integer, [e] an integer
    and [z] the atom [sqrt(1 - x**2 - y**2)].  sympy keeps such sums in a
    canonical form (like summands are merged, zero summands disappear); the
    model keeps the same canonical forms in finite maps, so that equality
    of expressions is equality of maps.

    What the model takes from sympy 1.3, the version the notebook records:
    - [factorial] is [zoo] at a negative integer and stays symbolic at a
      half-integer, where [simplify] evaluates it through the gamma
      function; it raises nothing.  A finite number divided by [zoo] is 0.
    - [e.coeff(t)] looks for the factors of [t] among the factors of each
      summand of [e], and [e.coeff(1)] selects the summands whose rational
      factor is 1.
    - [m[n] = list] on a dense matrix copies the list in as a one-column
      matrix whose top stands at the position [divmod(n, cols)].
    - [m.inv()] brings [m | eye] to reduced row echelon form by the
      fraction-free elimination of [rref], and raises [ValueError] when a
      diagonal entry of the result is zero.
    The lemma [M_value] compares the model with the inverse matrix that the
    notebook displays. *)

From Stdlib Require Import ZArith QArith Lia List.
From stdpp Require Import base gmap list fin_maps.

Local Open Scope Z_scope.

(** ** Python outcomes *)

(** A call returns a value, raises an exception, or produces a value that
    lies outside the fragment modelled here (a float, [nan], a negative
    power of a symbol, a quotient by a sum of radicals). *)
Inductive exn : Set :=
| ValueError | TypeError | ShapeError | IndexError | AttributeError
| NonSquareMatrixError.

Inductive result (A : Type) : Type :=
| Ok (a : A)
| Raise (e : exn)
| Beyond.
Arguments Ok {A} a.
Arguments Raise {A} e.
Arguments Beyond {A}.

#[global] Instance exn_eq_dec : EqDecision exn.
Proof. solve_decision. Defined.

#[global] Instance result_eq_dec {A} `{EqDecision A} : EqDecision (result A).
Proof. solve_decision. Defined.

#[global] Instance result_ret : MRet result := fun A a => Ok a.
#[global] Instance result_bind : MBind result := fun A B f r =>
  match r with
  | Ok a => f a
  | Raise e => Raise e
  | Beyond => Beyond
  end.

(** [try: body except e: handler] *)
Definition try_except {A} (body : result A) (e : exn) (handler : result A)
  : result A :=
  match body with
  | Raise e' => if decide (e' = e) then handler else body
  | _ => body
  end.

(** [for x in xs: s = body(x, s)] *)
Fixpoint for_in {A S : Type} (xs : list A) (body : A -> S -> result S) (s : S)
  : result S :=
  match xs with
  | [] => Ok s
  | x :: xs' => s' ← body x s; for_in xs' body s'
  end.

(** [range(start, stop, step)] for a positive step. *)
Definition range (start stop step : Z) : list Z :=
  (fun i : nat => start + step * Z.of_nat i) <$>
    seq 0 (Z.to_nat ((stop - start + step - 1) / step)).

(** [b ** e] on Python integers: an integer for [e >= 0], a float below. *)
Definition py_pow (b e : Z) : result Z :=
  if e <? 0 then Beyond else Ok (b ^ e).

(** ** Exact constants *)

(** A key [(r, e)] stands for [sqrt(r) * sqrt(pi)^e]; a constant is a finite
    sum of rational multiples of such keys.  Stored rationals are reduced
    and non-zero. *)
Definition surd : Type := (Z * Z).
Abbreviation Const := (gmap surd Q).

#[global] Instance Q_eq_dec : EqDecision Q.
Proof. solve_decision. Defined.

Definition qnorm (q : Q) : option Q :=
  let r := Qred q in if Qnum r =? 0 then None else Some r.

Definition cmono (q : Q) (r e : Z) : Const :=
  match qnorm q with
  | Some v => {[ (r, e) := v ]}
  | None => ∅
  end.

Definition crat (q : Q) : Const := cmono q 1 0.
Definition cint (n : Z) : Const := crat (inject_Z n).
Definition cpi : Const := cmono 1 1 2.

Definition qadd_opt (a b : option Q) : option Q :=
  match a, b with
  | Some x, Some y => qnorm (x + y)
  | Some x, None => Some x
  | None, o => o
  end.

Definition cadd (a b : Const) : Const := merge qadd_opt a b.

Definition cneg (a : Const) : Const := Qopp <$> a.

Definition csub (a b : Const) : Const := cadd a (cneg b).

(** [sqrt(r1) * sqrt(r2) = g * sqrt((r1/g) * (r2/g))] with [g] the gcd. *)
Definition kmul (k1 k2 : surd) : Q * surd :=
  let g := Z.gcd k1.1 k2.1 in
  (inject_Z g, ((k1.1 / g) * (k2.1 / g), k1.2 + k2.2)).

Definition cmul_term (k1 : surd) (q1 : Q) (b : Const) : Const :=
  map_fold (fun k2 q2 acc =>
              let '(g, k) := kmul k1 k2 in
              cadd acc (cmono (q1 * q2 * g) k.1 k.2)) ∅ b.

Definition cmul (a b : Const) : Const :=
  map_fold (fun k1 q1 acc => cadd acc (cmul_term k1 q1 b)) ∅ a.

(** The only summand of a constant that has exactly one. *)
Definition as_mono (c : Const) : option (surd * Q) :=
  match map_to_list c with
  | [kq] => Some kq
  | _ => None
  end.

(** [1 / (q * sqrt(r) * sqrt(pi)^e) = 1/(q*r) * sqrt(r) * sqrt(pi)^(-e)] *)
Definition cinv_mono (kq : surd * Q) : Const :=
  cmono (/ (kq.2 * inject_Z kq.1.1)) kq.1.1 (- kq.1.2).

Definition as_Z (c : Const) : option Z :=
  if decide (c = ∅) then Some 0
  else match as_mono c with
       | Some ((1, 0), Qmake n 1) => Some n
       | _ => None
       end.

(** *** Square roots *)

(** [n = s^2 * t] by trial division, [t] square-free. *)
Fixpoint sqf_loop (fuel : nat) (d n s : Z) : Z * Z :=
  match fuel with
  | O => (s, n)
  | S f =>
      if n <? d * d then (s, n)
      else if n mod (d * d) =? 0 then sqf_loop f d (n / (d * d)) (s * d)
           else sqf_loop f (d + 1) n s
  end.

Definition sqf_split (n : Z) : Z * Z :=
  sqf_loop (Z.to_nat (Z.sqrt n + Z.log2 n + 1)) 2 n 1.

(** [sqrt(a/b) = sqrt(a*b)/b = (s/b) * sqrt(t)] where [a*b = s^2 * t]. *)
Definition qsqrt (q : Q) : Q * Z :=
  let a := Qnum q in
  let b := Z.pos (Qden q) in
  let '(s, t) := sqf_split (a * b) in
  (Qmake s (Qden q), t).

(** ** sympy numbers: finite constants, [zoo] and [nan] *)

Inductive num : Type :=
| Fin (c : Const)
| Zoo
| Nan.

Definition is_zero (c : Const) : bool := bool_decide (c = ∅).

Definition nmul (a b : num) : num :=
  match a, b with
  | Fin x, Fin y => Fin (cmul x y)
  | Nan, _ | _, Nan => Nan
  | Zoo, Zoo => Zoo
  | Zoo, Fin c | Fin c, Zoo => if is_zero c then Nan else Zoo
  end.

Definition ndiv (a b : num) : result num :=
  match a, b with
  | Nan, _ | _, Nan => Ok Nan
  | Zoo, Zoo => Ok Nan
  | Zoo, Fin _ => Ok Zoo
  | Fin _, Zoo => Ok (Fin ∅)
  | Fin x, Fin y =>
      if is_zero y then Ok (if is_zero x then Nan else Zoo)
      else match as_mono y with
           | Some kq => Ok (Fin (cmul x (cinv_mono kq)))
           | None => Beyond
           end
  end.

(** [sqrt] of a number [q * sqrt(pi)^e] with [q > 0] and [e] even. *)
Definition nsqrt (a : num) : result num :=
  match a with
  | Zoo => Ok Zoo
  | Nan => Ok Nan
  | Fin c =>
      if is_zero c then Ok (Fin ∅)
      else match as_mono c with
           | Some ((1, e), q) =>
               if (0 <? Qnum q) && Z.even e
               then let '(f, t) := qsqrt q in Ok (Fin (cmono f t (e / 2)))
               else Beyond
           | _ => Beyond
           end
  end.

(** A finite value is demanded where the notebook goes on to build a
    polynomial summand. *)
Definition finite (a : num) : result Const :=
  match a with
  | Fin c => Ok c
  | _ => Beyond
  end.

(** [simplify]: every operation above returns the canonical form already. *)
Definition simplify (a : num) : num := a.

(** *** Factorials *)

Fixpoint zfact (n : nat) : Z :=
  match n with
  | O => 1
  | S k => Z.of_nat n * zfact k
  end.

(** [Gamma(t + 1/2) / sqrt(pi)] *)
Fixpoint ghalf_up (t : nat) : Q :=
  match t with
  | O => 1
  | S t' => ghalf_up t' * Qmake (2 * Z.of_nat t' + 1) 2
  end.

(** [Gamma(1/2 - t) / sqrt(pi)] *)
Fixpoint ghalf_down (t : nat) : Q :=
  match t with
  | O => 1
  | S t' => ghalf_down t' * Qmake (-2) (Pos.of_succ_nat (2 * t'))
  end.

(** [Gamma(n/2) / sqrt(pi)] for odd [n] *)
Definition gamma_half (n : Z) : Q :=
  if 0 <? n then ghalf_up (Z.to_nat ((n - 1) / 2))
  else ghalf_down (Z.to_nat ((1 - n) / 2)).

(** [factorial(n)] on a Python or sympy integer: [zoo] below zero. *)
Definition factorial (n : Z) : num :=
  if n <? 0 then Zoo else Fin (cint (zfact (Z.to_nat n))).

(** [factorial(Rational(n, 2))] as [simplify] leaves it: the integer
    factorial when [n] is even, [Gamma(n/2 + 1)] when [n] is odd.  It never
    raises. *)
Definition factorial_half (n : Z) : result num :=
  if Z.even n then Ok (factorial (n / 2))
  else Ok (Fin (cmono (gamma_half (n + 2)) 1 1)).

(** [Rational(p, q)] on sympy numbers: a [TypeError] unless both are
    integers. *)
Definition Rational (p q : num) : result num :=
  match p, q with
  | Fin a, Fin b =>
      match as_Z a, as_Z b with
      | Some _, Some _ => ndiv p q
      | _, _ => Raise TypeError
      end
  | _, _ => Raise TypeError
  end.

Definition KroneckerDelta (i j : Z) : Z := if i =? j then 1 else 0.

(** ** The normalisation constants of the notebook *)

Definition SA (l m : Z) : result num :=
  q ← ndiv (nmul (nmul (Fin (cint (2 - KroneckerDelta m 0)))
                        (Fin (cint (2 * l + 1))))
                  (factorial (l - m)))
            (nmul (nmul (Fin (cint 4)) (Fin cpi)) (factorial (l + m)));
  nsqrt q.

(** For [l < 0] the power [2 ** l] is a Python float, which is not followed
    here ([Beyond]); the loops of [Y] call [SB] with [l >= abs(m)] only. *)
Definition SB (l m j k : Z) : result num :=
  ratio ← try_except
            (a ← factorial_half (l + m + k - 1);
             b ← factorial_half (- l + m + k - 1);
             ndiv a b)
            ValueError (Ok (Fin ∅));
  p2 ← py_pow 2 l;
  w ← Rational (factorial m)
        (nmul (nmul (nmul (factorial j) (factorial k)) (factorial (m - j)))
              (factorial (l - m - k)));
  Ok (simplify (nmul (nmul (Fin (cint p2)) w) ratio)).

Definition SC (p q k : Z) : result num :=
  fk ← factorial_half k;
  fq ← factorial_half q;
  fkp ← factorial_half (k - p);
  fpq ← factorial_half (p - q);
  res ← ndiv fk (nmul (nmul fq fkp) fpq);
  Ok (simplify res).

(** ** Polynomial expressions in x, y and z = sqrt(1 - x**2 - y**2) *)

(** A monomial [x^a * y^b * z^c] is the triple of its exponents; an
    expression maps each monomial that occurs to its non-zero constant
    coefficient.  The notebook only ever builds monomials with [c <= 1],
    and it is on those that the type follows sympy, which holds [z ** 2] as
    the sum [1 - x ** 2 - y ** 2]. *)
Definition mono : Type := (nat * nat * nat).
Abbreviation Expr := (gmap mono Const).

Definition mono1 : mono := (0, 0, 0)%nat.

Inductive var : Set := vx | vy | vz.

Definition exponent (v : var) (t : mono) : nat :=
  match v with
  | vx => t.1.1
  | vy => t.1.2
  | vz => t.2
  end.

Definition cnorm (c : Const) : option Const :=
  if is_zero c then None else Some c.

(** The summand [c * t] for a constant [c] and a monomial [t]. *)
Definition eterm (c : Const) (t : mono) : Expr :=
  match cnorm c with
  | Some v => {[ t := v ]}
  | None => ∅
  end.

Definition cadd_opt (a b : option Const) : option Const :=
  match a, b with
  | Some x, Some y => cnorm (cadd x y)
  | Some x, None => Some x
  | None, o => o
  end.

Definition eadd (a b : Expr) : Expr := merge cadd_opt a b.

(** [e * c] for a constant [c] *)
Definition escale (e : Expr) (c : Const) : Expr :=
  omap (fun v => cnorm (cmul v c)) e.

(** [e.subs(v, 0)]: the summands in which [v] occurs vanish. *)
Definition subs (v : var) (e : Expr) : Expr :=
  filter (fun kv => exponent v kv.1 = 0%nat) e.

(** [x ** e] for a symbol and a Python integer, and for [Rational(n, 2)];
    only natural powers stay polynomial. *)
Definition sym_pow (e : Z) : result nat :=
  if e <? 0 then Beyond else Ok (Z.to_nat e).

Definition sym_pow_half (n : Z) : result nat :=
  if Z.even n then sym_pow (n / 2) else Beyond.

(** [e.coeff(t)] for a monomial [t].

    For [t = 1] sympy returns the summands whose rational factor is 1.
    Otherwise it keeps each summand among whose factors all the factors of
    [t] (its powers [x**i], [y**j], [z**k] with a positive exponent) occur
    as they are, removes those factors from it, and adds up what is left. *)
Definition var_matches (v : var) (t s : mono) : bool :=
  bool_decide (exponent v t = 0%nat ∨ exponent v s = exponent v t).

Definition matches (t s : mono) : bool :=
  var_matches vx t s && var_matches vy t s && var_matches vz t s.

Definition residue (t s : mono) : mono :=
  let r v := if decide (exponent v t = 0%nat) then exponent v s else 0%nat in
  (r vx, r vy, r vz).

(** A summand of the expression with the factors of [t] removed, when they
    all occur in it. *)
Definition strip (t : mono) (kv : mono * Const) : option (mono * Const) :=
  if matches t kv.1 then Some (residue t kv.1, kv.2) else None.

(** The sum of the list [co] of summands that [coeff] returns. *)
Definition esum (l : list (mono * Const)) : Expr :=
  foldr (fun kv acc => eadd (eterm kv.2 kv.1) acc) ∅ l.

Definition unit_summands (c : Const) : option Const :=
  cnorm (filter (fun kq => kq.2 = 1%Q) c).

Definition coeff (e : Expr) (t : mono) : Expr :=
  if decide (t = mono1) then omap unit_summands e
  else esum (omap (strip t) (map_to_list e)).

(** What a Python name may hold in [Y]: the integer [0] it starts from, or a
    sympy expression. *)
Inductive pyobj : Type :=
| PyInt0
| Sym (e : Expr).

(** [res += t] *)
Definition iadd (res : pyobj) (t : Expr) : pyobj :=
  match res with
  | PyInt0 => Sym t
  | Sym e => Sym (eadd e t)
  end.

(** Attribute access [.subs] or [.coeff]: an [int] has neither. *)
Definition as_expr (o : pyobj) : result Expr :=
  match o with
  | PyInt0 => Raise AttributeError
  | Sym e => Ok e
  end.

(** ** The functions of the notebook *)

(** [floor(sqrt(n))] wrapped in [Rational]: a complex number for [n < 0]. *)
Definition floor_sqrt (n : Z) : result Z :=
  if n <? 0 then Raise TypeError else Ok (Z.sqrt n).

Definition poly_basis (n : Z) : result mono :=
  l ← floor_sqrt n;
  let m := n - l * l - l in
  let mu := l - m in
  let nu := l + m in
  if nu mod 2 =? 0 then
    i ← sym_pow_half mu;
    j ← sym_pow_half nu;
    Ok (i, j, 0%nat)
  else
    i ← sym_pow_half (mu - 1);
    j ← sym_pow_half (nu - 1);
    Ok (i, j, 1%nat).

Definition subs_zero (e : Expr) : Expr := subs vy (subs vx (subs vz e)).

Definition Coefficient (expression : pyobj) (term : mono) : result Expr :=
  e ← as_expr expression;
  Ok (subs_zero (coeff e term)).

(** One [res += (-1) ** s * SA(l, m) * SB(l, m, j, k) * SC(p, q, kc)
                 * x ** (m - j + p - q) * y ** (j + q) [* z]]. *)
Definition accumulate (s l m j k p q kc : Z) (c : nat) (res : pyobj)
  : result pyobj :=
  sg ← py_pow (-1) s;
  sa ← SA l m;
  sb ← SB l m j k;
  sc ← SC p q kc;
  coef ← finite (nmul (nmul (nmul (Fin (cint sg)) sa) sb) sc);
  a ← sym_pow (m - j + p - q);
  b ← sym_pow (j + q);
  Ok (iadd res (eterm coef (a, b, c))).

Definition Y (l m : Z) : result pyobj :=
  if 0 <=? m then
    for_in (range 0 (m + 1) 2) (fun j res =>
      res ← for_in (range 0 (l - m + 1) 2) (fun k res =>
        for_in (range 0 (k + 1) 2) (fun p res =>
          for_in (range 0 (p + 1) 2) (fun q res =>
            accumulate ((j + p) / 2) l m j k p q k 0 res) res) res) res;
      for_in (range 1 (l - m + 1) 2) (fun k res =>
        for_in (range 0 k 2) (fun p res =>
          for_in (range 0 (p + 1) 2) (fun q res =>
            accumulate ((j + p) / 2) l m j k p q (k - 1) 1 res) res) res) res)
      PyInt0
  else
    for_in (range 1 (Z.abs m + 1) 2) (fun j res =>
      res ← for_in (range 0 (l - Z.abs m + 1) 2) (fun k res =>
        for_in (range 0 (k + 1) 2) (fun p res =>
          for_in (range 0 (p + 1) 2) (fun q res =>
            accumulate ((j + p - 1) / 2) l (Z.abs m) j k p q k 0 res)
            res) res) res;
      for_in (range 1 (l - Z.abs m + 1) 2) (fun k res =>
        for_in (range 0 k 2) (fun p res =>
          for_in (range 0 (p + 1) 2) (fun q res =>
            accumulate ((j + p - 1) / 2) l (Z.abs m) j k p q (k - 1) 1 res)
            res) res) res)
      PyInt0.

(** [ylm.subs(sqrt(1 - x ** 2 - y ** 2), 0).subs(x, 0).subs(y, 0)] *)
Definition at_origin (ylm : pyobj) : result Expr :=
  e ← as_expr ylm;
  Ok (subs_zero e).

Definition p_Y (l m lmax : Z) : result (list Expr) :=
  ylm ← Y l m;
  c0 ← at_origin ylm;
  for_in (range 1 ((lmax + 1) ^ 2) 1)
    (fun n res => t ← poly_basis n; c ← Coefficient ylm t; Ok (res ++ [c]))
    [c0].

(** ** Dense matrices *)

(** sympy stores a dense matrix as its shape and the flat list of its
    entries, row after row. *)
Record Matrix (A : Type) : Type := mkMatrix {
  rows : nat;
  cols : nat;
  mat : list A
}.
Arguments mkMatrix {A} rows cols mat.
Arguments rows {A} _.
Arguments cols {A} _.
Arguments mat {A} _.

#[global] Instance Matrix_eq_dec {A} `{EqDecision A} : EqDecision (Matrix A).
Proof. solve_decision. Defined.

Definition zeros (r c : Z) : Matrix Expr :=
  mkMatrix (Z.to_nat r) (Z.to_nat c) (replicate (Z.to_nat r * Z.to_nat c) ∅).

(** [copyin_matrix] for a one-column value: [self[i + t, j] = value[t]]. *)
Fixpoint copyin_col {A} (ncols i j : nat) (value : list A) (m : list A)
  : list A :=
  match value with
  | [] => m
  | v :: vs => copyin_col ncols (S i) j vs (<[(i * ncols + j)%nat := v]> m)
  end.

(** [res[key] = value] for an integer key and a Python list [value].

    sympy turns the key into the position [divmod(key, cols)] of the flat
    storage and the list into a one-column matrix, and copies that matrix
    in with its top at that position: the list fills a column downwards. *)
Definition setitem {A} (res : Matrix A) (key : Z) (value : list A)
  : result (Matrix A) :=
  let len := Z.of_nat (rows res * cols res) in
  let key := if key <? 0 then key + len else key in
  if (key <? 0) || (len <=? key) then Raise IndexError
  else
    let i := Z.to_nat (key / Z.of_nat (cols res)) in
    let j := Z.to_nat (key mod Z.of_nat (cols res)) in
    if (rows res <? i + length value)%nat then Raise ShapeError
    else Ok (mkMatrix (rows res) (cols res)
                      (copyin_col (cols res) i j value (mat res))).

(** [res * norm] *)
Definition mscale (res : Matrix Expr) (norm : Const) : Matrix Expr :=
  mkMatrix (rows res) (cols res) ((fun e => escale e norm) <$> mat res).

(** The default [norm = 2 / sqrt(pi)]. *)
Definition norm_default : Const := cmono 2 1 (-1).

Definition A1 (lmax : Z) (norm : Const) : result (Matrix Expr) :=
  let res := zeros ((lmax + 1) ^ 2) ((lmax + 1) ^ 2) in
  st ← for_in (range 0 (lmax + 1) 1) (fun l st =>
         for_in (range (- l) (l + 1) 1) (fun m st =>
           v ← p_Y l m lmax;
           res ← setitem st.1 st.2 v;
           Ok (res, st.2 + 1)) st)
       (res, 0);
  Ok (mscale st.1 norm).

(** *** Inversion by row reduction *)

Definition is_constant (e : Expr) : Prop :=
  map_Forall (fun k _ => k = mono1) e.

(** The value of an expression in which no symbol occurs. *)
Definition numeric (e : Expr) : result Const :=
  if decide (is_constant e) then Ok (default ∅ (e !! mono1)) else Beyond.

Fixpoint mapM {A B} (f : A -> result B) (l : list A) : result (list B) :=
  match l with
  | [] => Ok []
  | x :: xs => y ← f x; ys ← mapM f xs; Ok (y :: ys)
  end.

Definition numeric_matrix (a : Matrix Expr) : result (Matrix Const) :=
  m ← mapM numeric (mat a);
  Ok (mkMatrix (rows a) (cols a) m).

Definition mget (ncols : nat) (m : list Const) (i j : nat) : Const :=
  default ∅ (m !! (i * ncols + j)%nat).

Definition get_row {A} (ncols : nat) (m : list A) (i : nat) : list A :=
  take ncols (drop (i * ncols) m).

Definition set_row {A} (ncols : nat) (m : list A) (i : nat) (r : list A)
  : list A :=
  take (i * ncols) m ++ r ++ drop (S i * ncols) m.

(** [hstack(self, eye(rows))] *)
Definition eye_row (n i : nat) : list Const :=
  (fun j => if (j =? i)%nat then cint 1 else ∅) <$> seq 0 n.

Definition eye (n : nat) : Matrix Const :=
  mkMatrix n n (flat_map (eye_row n) (seq 0 n)).

Definition hstack_eye (a : Matrix Const) : Matrix Const :=
  mkMatrix (rows a) (cols a + rows a)
    (flat_map (fun i => get_row (cols a) (mat a) i ++ eye_row (rows a) i)
              (seq 0 (rows a))).

(** The first row, from [r] down, whose entry in column [c] is not zero. *)
Fixpoint find_pivot (ncols : nat) (m : list Const) (c r n : nat)
  : option nat :=
  match n with
  | O => None
  | S n' => if is_zero (mget ncols m r c)
            then find_pivot ncols m c (S r) n'
            else Some r
  end.

Definition row_swap (ncols : nat) (m : list Const) (i j : nat) : list Const :=
  set_row ncols (set_row ncols m i (get_row ncols m j)) j (get_row ncols m i).

(** [row[i] = a * row[i] - b * row[j]] *)
Definition cross_cancel (ncols : nat) (a : Const) (i : nat) (b : Const)
  (j : nat) (m : list Const) : list Const :=
  set_row ncols m i
    (zip_with (fun x y => csub (cmul a x) (cmul b y))
              (get_row ncols m i) (get_row ncols m j)).

(** The fraction-free reduction loop of [rref]; each turn either moves to
    the next column or to the next row. *)
Fixpoint row_reduce (fuel nrows ncols : nat) (m : list Const)
  (piv_row piv_col : nat) (pivots : list nat) : list Const * list nat :=
  match fuel with
  | O => (m, pivots)
  | S fuel' =>
      if (piv_col <? ncols)%nat && (piv_row <? nrows)%nat then
        match find_pivot ncols m piv_col piv_row (nrows - piv_row) with
        | None =>
            row_reduce fuel' nrows ncols m piv_row (S piv_col) pivots
        | Some r =>
            let m := if (r =? piv_row)%nat then m
                     else row_swap ncols m piv_row r in
            let pivot_val := mget ncols m piv_row piv_col in
            let m :=
              foldl (fun m row =>
                       if (row =? piv_row)%nat then m
                       else let val := mget ncols m row piv_col in
                            if is_zero val then m
                            else cross_cancel ncols pivot_val row val
                                   piv_row m)
                    m (seq 0 nrows) in
            row_reduce fuel' nrows ncols m (S piv_row) piv_col
                       (pivots ++ [piv_col])
        end
      else (m, pivots)
  end.

Definition cdiv (x y : Const) : result Const :=
  ndiv (Fin x) (Fin y) ≫= finite.

(** Normalising row [i], whose pivot stands in column [j]. *)
Definition normalize_row (ncols : nat) (m : list Const) (i j : nat)
  : result (list Const) :=
  let pivot_val := mget ncols m i j in
  let r := get_row ncols m i in
  tl ← mapM (fun x => cdiv x pivot_val) (drop (S j) r);
  Ok (set_row ncols m i (take j r ++ cint 1 :: tl)).

Fixpoint normalize (ncols : nat) (m : list Const) (i : nat)
  (pivots : list nat) : result (list Const) :=
  match pivots with
  | [] => Ok m
  | j :: ps => m' ← normalize_row ncols m i j; normalize ncols m' (S i) ps
  end.

Definition rref (a : Matrix Const) : result (Matrix Const) :=
  let '(m, pivots) :=
    row_reduce (rows a + cols a) (rows a) (cols a) (mat a) 0 0 [] in
  m' ← normalize (cols a) m 0 pivots;
  Ok (mkMatrix (rows a) (cols a) m').

(** [Matrix(a).inv()]: reduce [a | eye], refuse a zero on the diagonal, and
    return the right half. *)
Definition inv (a : Matrix Expr) : result (Matrix Const) :=
  an ← numeric_matrix a;
  if negb (rows a =? cols a)%nat then Raise NonSquareMatrixError
  else
    let big := hstack_eye an in
    red ← rref big;
    if existsb (fun j => is_zero (mget (cols red) (mat red) j j))
               (seq 0 (rows red))
    then Raise ValueError
    else Ok (mkMatrix (rows a) (rows a)
               (flat_map (fun i => drop (cols a)
                                     (get_row (cols red) (mat red) i))
                         (seq 0 (rows a)))).

(** [a * b] *)
Definition matmul (a b : Matrix Const) : result (Matrix Const) :=
  if negb (cols a =? rows b)%nat then Raise ShapeError
  else Ok (mkMatrix (rows a) (cols b)
             (flat_map (fun i =>
                (fun j =>
                   foldl (fun acc k =>
                            cadd acc (cmul (mget (cols a) (mat a) i k)
                                           (mget (cols b) (mat b) k j)))
                         ∅ (seq 0 (cols a))) <$> seq 0 (cols b))
              (seq 0 (rows a)))).

(** [Matrix([v0, v1, ...])]: a column of integers. *)
Definition column (v : list Z) : Matrix Const :=
  mkMatrix (length v) 1 (cint <$> v).

(** ** The cells of the notebook *)

(** [M = Matrix(A1(2)).inv()] *)
Definition M : result (Matrix Const) := A1 2 norm_default ≫= inv.

(** [vec = Matrix(v); ycoeffs = simplify(M * vec)] *)
Definition ycoeffs (v : list Z) : result (list Const) :=
  m ← M;
  r ← matmul m (column v);
  Ok (mat r).

(** ** Auxiliary definitions for the statements *)

(** The two branches of [Y] run the same loops: over [j] from [j0], with the
    order [ma] and the sign exponent [sgn j p]. *)
Definition Yloops (l ma j0 : Z) (sgn : Z -> Z -> Z) : result pyobj :=
  for_in (range j0 (ma + 1) 2) (fun j res =>
    res ← for_in (range 0 (l - ma + 1) 2) (fun k res =>
      for_in (range 0 (k + 1) 2) (fun p res =>
        for_in (range 0 (p + 1) 2) (fun q res =>
          accumulate (sgn j p) l ma j k p q k 0 res) res) res) res;
    for_in (range 1 (l - ma + 1) 2) (fun k res =>
      for_in (range 0 k 2) (fun p res =>
        for_in (range 0 (p + 1) 2) (fun q res =>
          accumulate (sgn j p) l ma j k p q (k - 1) 1 res) res) res) res)
    PyInt0.

(** The polynomial basis as the specification words it: the exponents
    [(i, j, k)] of [x], [y] and [z] for the index [n]. *)
Definition poly_basis_spec (n : Z) : mono :=
  let l := Z.sqrt n in
  let m := n - l ^ 2 - l in
  let mu := l - m in
  let nu := l + m in
  if Z.even nu then (Z.to_nat (mu / 2), Z.to_nat (nu / 2), 0%nat)
  else (Z.to_nat ((mu - 1) / 2), Z.to_nat ((nu - 1) / 2), 1%nat).

(** The position of the pair [(l, m)] in the order [(0,0), (1,-1), (1,0),
    (1,1), (2,-2), ...]. *)
Definition index_lm (l m : Z) : Z := l * l + l + m.

(** Row [i] and column [j] of a matrix of expressions. *)
Definition row_of (a : Matrix Expr) (i : nat) : list Expr :=
  get_row (cols a) (mat a) i.

Definition col_of (a : Matrix Expr) (j : nat) : list Expr :=
  (fun i => default ∅ (mat a !! (i * cols a + j)%nat)) <$> seq 0 (rows a).

(** The coefficient of the monomial [t] in [e], as an expression. *)
Definition coefficient_of (e : Expr) (t : mono) : Expr :=
  eterm (default ∅ (e !! t)) mono1.

(** [q * sqrt(r) * pi] *)
Definition surd_pi (q : Q) (r : Z) : Const := cmono q r 2.

(** [a * a.inv()] for the matrix [a = A1(lmax)]. *)
Definition round_trip (lmax : Z) : result (Matrix Const) :=
  a ← A1 lmax norm_default;
  an ← numeric_matrix a;
  m ← inv a;
  matmul an m.

(** Predicates on what [Y] accumulates. *)
Definition is_Sym (o : pyobj) : Prop := exists e, o = Sym e.

Definition established (I : pyobj -> Prop) (o : pyobj) : Prop :=
  I o /\ is_Sym o.

(** No constant summand: the expression vanishes at [x = y = z = 0]. *)
Definition origin_free (o : pyobj) : Prop :=
  match o with
  | PyInt0 => True
  | Sym e => e !! mono1 = None
  end.

(** The list [p_Y] yields for the pair at position [j] of the order. *)
Definition pcol (lmax : Z) (j : nat) : list Expr :=
  let n := Z.of_nat j in
  match p_Y (Z.sqrt n) (n - Z.sqrt n * Z.sqrt n - Z.sqrt n) lmax with
  | Ok v => v
  | _ => []
  end.

(** The state of the matrix [res] in [A1] once the columns before [t] are
    filled: they hold the lists of [p_Y], the others are still zero. *)
Definition cols_done (lmax : Z) (t : Z) (a : Matrix Expr) : Prop :=
  let n := Z.to_nat ((lmax + 1) ^ 2) in
  rows a = n /\ cols a = n /\ length (mat a) = (n * n)%nat
  /\ forall i j : nat, (i < n)%nat -> (j < n)%nat ->
       mat a !! (i * n + j)%nat
       = Some (if decide (Z.of_nat j < t)
               then default ∅ (pcol lmax j !! i) else ∅).

(** Boolean tests by which two results are told apart. *)
Definition ezero (e : Expr) : bool := bool_decide (e = ∅).

Definition result_zero (r : result Expr) : bool :=
  match r with
  | Ok e => ezero e
  | _ => false
  end.

Definition num_zero (r : result num) : bool :=
  match r with
  | Ok (Fin c) => is_zero c
  | _ => false
  end.

(** A decidable closed statement holds when its decision evaluates to
    [true]. *)
Ltac by_evaluation := apply (bool_decide_unpack _); vm_compute; exact I.

(** Two values differ when a computable function tells them apart. *)
Ltac differ f :=
  let H := fresh "H" in
  intros H; apply (f_equal f) in H; vm_compute in H; discriminate H.

(** Unfolding the outcome monad and the arithmetic of sympy numbers, and
    nothing below them. *)
Ltac rsimpl :=
  cbn [mbind result_bind mret result_ret try_except finite simplify nmul].

(** ** Auxiliary definitions for the further properties *)

(** The total degree of a monomial. *)
Definition degree (t : mono) : nat := (t.1.1 + t.1.2 + t.2)%nat.

(** The index at which the polynomial basis holds the monomial
    [x^i * y^j * z^k]: that of the pair [l = i + j + k], [m = j - i]. *)
Definition mono_index (t : mono) : Z :=
  index_lm (Z.of_nat (degree t)) (Z.of_nat t.1.2 - Z.of_nat t.1.1).

(** The falling factorial [a * (a - 1) * ... * (a - l + 1)]. *)
Fixpoint falling (a : Q) (l : nat) : Q :=
  match l with
  | O => 1
  | S l' => falling a l' * (a - inject_Z (Z.of_nat l'))
  end.

(** The rational number under the square root of [SA]:
    [(2 - delta(m, 0)) * (2 l + 1) * (l - m)! / (4 * (l + m)!)]. *)
Definition SA_radicand (l m : Z) : Q :=
  Qmake ((2 - KroneckerDelta m 0) * (2 * l + 1) * zfact (Z.to_nat (l - m)))
        (Z.to_pos (4 * zfact (Z.to_nat (l + m)))).

(** The weight [SB] in closed form:
    [2^l * m! / (j! k! (m-j)! (l-m-k)!) * ff], with [ff] the falling
    factorial of [(l + m + k - 1)/2] over [l] factors. *)
Definition SB_closed (l m j k : Z) : Q :=
  inject_Z (2 ^ l)
  * (inject_Z (zfact (Z.to_nat m))
     / inject_Z (zfact (Z.to_nat j) * zfact (Z.to_nat k)
                 * zfact (Z.to_nat (m - j)) * zfact (Z.to_nat (l - m - k))))
  * falling (Qmake (l + m + k - 1) 2) (Z.to_nat l).

(** The weight [SC] in closed form: the trinomial coefficient
    [(k/2)! / ((q/2)! ((k-p)/2)! ((p-q)/2)!)]. *)
Definition SC_closed (p q k : Z) : Q :=
  inject_Z (zfact (Z.to_nat (k / 2)))
  / inject_Z (zfact (Z.to_nat (q / 2)) * zfact (Z.to_nat ((k - p) / 2))
              * zfact (Z.to_nat ((p - q) / 2))).

(** The monomial [x^(ma - j + p - q) * y^(j + q) * z^c] of one summand. *)
Definition summand_mono (ma j p q : Z) (c : nat) : mono :=
  (Z.to_nat (ma - j + p - q), Z.to_nat (j + q), c).

(** The indices one turn of the innermost loops of [Y] runs with: [c = 0]
    in the loop over even [k], [c = 1] in the loop over odd [k]. *)
Definition loop_indices (l ma j0 j k p q : Z) (c : nat) : Prop :=
  j0 <= j <= ma /\ Z.even (j - j0) = true
  /\ 0 <= k <= l - ma /\ Z.even p = true /\ Z.even q = true
  /\ 0 <= q <= p
  /\ ((c = 0%nat /\ Z.even k = true /\ p <= k)
      \/ (c = 1%nat /\ Z.even k = false /\ p <= k - 1)).

(** Every monomial of the expression satisfies [P]. *)
Definition monomials (P : mono -> Prop) (o : pyobj) : Prop :=
  match o with
  | PyInt0 => True
  | Sym e => forall t c, e !! t = Some c -> P t
  end.

(** No zero coefficient is stored. *)
Definition canonical (o : pyobj) : Prop :=
  match o with
  | PyInt0 => True
  | Sym e => forall t c, e !! t = Some c -> c <> ∅
  end.

(** The start of the loop over [j] in the two branches of [Y]. *)
Definition j_start (m : Z) : Z := if 0 <=? m then 0 else 1.

(** The sum of [v[n] * poly_basis(n)] over the entries of a list of
    constant coefficients. *)
Definition from_coeffs (v : list Expr) : Expr :=
  esum (imap (fun n c => (poly_basis_spec (Z.of_nat n), default ∅ (c !! mono1)))
             v).

(** The entry in row [i] and column [j]. *)
Definition entry (a : Matrix Expr) (i j : nat) : Expr :=
  default ∅ (mat a !! (i * cols a + j)%nat).

(** The expressions on which the embedding of [coeff] follows sympy: the
    expanded sums, which is all the type holds, in whose monomials
    [z = sqrt(1 - x^2 - y^2)] occurs at most once.  sympy turns [z ** 2]
    into [1 - x ** 2 - y ** 2], a sum and no monomial. *)
Definition z_linear (e : Expr) : Prop :=
  map_Forall (fun (s : mono) (_ : Const) => (s.2 <= 1)%nat) e.

(** The summands of the constant term of [e] whose rational factor is 1,
    as an expression. *)
Definition unit_constant (e : Expr) : Expr :=
  match e !! mono1 ≫= unit_summands with
  | Some c => {[ mono1 := c ]}
  | None => ∅
  end.

(** * Properties *)

(** ** Outcomes and loops *)

Lemma bind_Ok {A B} (r : result A) (f : A -> result B) (b : B) :
  r ≫= f = Ok b -> exists a, r = Ok a /\ f a = Ok b.
Proof. destruct r as [a| |]; simpl; [eauto | discriminate..]. Qed.

Lemma for_in_app {A S} (xs ys : list A) (body : A -> S -> result S) (s : S) :
  for_in (xs ++ ys) body s = for_in xs body s ≫= for_in ys body.
Proof.
  revert s. induction xs as [|x xs IH]; intros s; simpl; [done|].
  destruct (body x s) as [s'| |]; simpl; auto.
Qed.

(** A loop keeps what every turn keeps. *)
Lemma for_in_inv {A S} (P : S -> Prop) (xs : list A)
  (body : A -> S -> result S) (s : S) :
  P s ->
  (forall x s, x ∈ xs -> P s -> exists s', body x s = Ok s' /\ P s') ->
  exists s', for_in xs body s = Ok s' /\ P s'.
Proof.
  revert s. induction xs as [|x xs IH]; intros s Hs Hstep; simpl.
  - eauto.
  - destruct (Hstep x s) as (s1 & -> & Hs1); [left | done |]. simpl.
    apply IH; [done|]. intros y t Hy. apply Hstep. by right.
Qed.

(** A loop that runs at least once ends in what every turn establishes. *)
Lemma for_in_post {A S} (P Q : S -> Prop) (xs : list A)
  (body : A -> S -> result S) (s : S) :
  xs <> [] -> P s -> (forall s, Q s -> P s) ->
  (forall x s, x ∈ xs -> P s -> exists s', body x s = Ok s' /\ Q s') ->
  exists s', for_in xs body s = Ok s' /\ Q s'.
Proof.
  intros Hne Hs HQP Hstep. destruct xs as [|x xs]; [done|]. simpl.
  destruct (Hstep x s) as (s1 & -> & Hs1); [left | done |]. simpl.
  apply (for_in_inv Q); [done|].
  intros y t Hy Ht. apply Hstep; [by right | auto].
Qed.

Lemma range_length (a b s : Z) :
  length (range a b s) = Z.to_nat ((b - a + s - 1) / s).
Proof. unfold range. by rewrite length_fmap, length_seq. Qed.

Lemma elem_of_range (a b s x : Z) :
  0 < s -> x ∈ range a b s -> a <= x < b /\ (x - a) mod s = 0.
Proof.
  intros Hs Hx. unfold range in Hx.
  apply list_elem_of_fmap in Hx as (i & -> & Hi).
  apply elem_of_seq in Hi.
  assert (Z.of_nat i < (b - a + s - 1) / s) as Hlt by lia.
  split.
  - split; [nia|].
    assert (s * Z.of_nat i + s <= b - a + s - 1); [|lia].
    pose proof (Z.mul_div_le (b - a + s - 1) s Hs). nia.
  - replace (a + s * Z.of_nat i - a) with (Z.of_nat i * s) by lia.
    apply Z.mod_mul. lia.
Qed.

Lemma range_nonempty (a b s : Z) : 0 < s -> a < b -> range a b s <> [].
Proof.
  intros Hs Hab Hnil. apply (f_equal length) in Hnil.
  rewrite range_length in Hnil. simpl in Hnil.
  assert (1 <= (b - a + s - 1) / s); [|lia].
  apply Z.div_le_lower_bound; lia.
Qed.

Lemma range_step1 (a b : Z) :
  range a b 1 = (fun i : nat => a + Z.of_nat i) <$> seq 0 (Z.to_nat (b - a)).
Proof.
  unfold range. rewrite Z.div_1_r.
  replace (b - a + 1 - 1) with (b - a) by lia.
  apply list_fmap_ext. intros; lia.
Qed.

Lemma range_snoc (a b : Z) : a <= b -> range a (b + 1) 1 = range a b 1 ++ [b].
Proof.
  intros Hab. rewrite !range_step1.
  replace (Z.to_nat (b + 1 - a)) with (Z.to_nat (b - a) + 1)%nat by lia.
  rewrite seq_app, fmap_app. simpl. do 2 f_equal. lia.
Qed.

Lemma range_empty (a : Z) : range a a 1 = [].
Proof. rewrite range_step1. by replace (a - a) with 0 by lia. Qed.

(** The invariant rule for a counting loop [for i in range(a, b)]. *)
Lemma for_in_range {St} (P : Z -> St -> Prop) (a b : Z)
  (body : Z -> St -> result St) (s : St) :
  a <= b -> P a s ->
  (forall i s, a <= i < b -> P i s -> exists s', body i s = Ok s' /\ P (i + 1) s') ->
  exists s', for_in (range a b 1) body s = Ok s' /\ P b s'.
Proof.
  intros Hab Hs Hstep.
  assert (forall n : nat, a + Z.of_nat n <= b ->
            exists s', for_in (range a (a + Z.of_nat n) 1) body s = Ok s'
                       /\ P (a + Z.of_nat n) s') as Hn.
  { induction n as [|n IH]; intros Hle.
    - replace (a + Z.of_nat 0) with a by lia. rewrite range_empty. simpl. eauto.
    - destruct IH as (s1 & Hrun & Hs1); [lia|].
      replace (a + Z.of_nat (S n)) with (a + Z.of_nat n + 1) by lia.
      rewrite range_snoc, for_in_app, Hrun by lia. simpl.
      destruct (Hstep (a + Z.of_nat n) s1) as (s2 & -> & Hs2); [lia | done |].
      simpl. eauto. }
  destruct (Hn (Z.to_nat (b - a))) as (s' & Hrun & Hs'); [lia|].
  replace (a + Z.of_nat (Z.to_nat (b - a))) with b in * by lia. eauto.
Qed.

(** ** Arithmetic of constants *)

Lemma Qnum_zero_iff (q : Q) : Qnum q = 0 <-> (q == 0)%Q.
Proof. unfold Qeq. simpl. lia. Qed.

Lemma qnorm_proper (q q' : Q) : (q == q')%Q -> qnorm q = qnorm q'.
Proof. intros H. unfold qnorm. by rewrite (Qred_complete _ _ H). Qed.

Lemma qnorm_zero (q : Q) : (q == 0)%Q -> qnorm q = None.
Proof. intros H. by rewrite (qnorm_proper _ _ H). Qed.

Lemma qnorm_nonzero (q : Q) : ~ (q == 0)%Q -> qnorm q = Some (Qred q).
Proof.
  intros H. unfold qnorm.
  destruct (Qnum (Qred q) =? 0) eqn:E; [|done].
  exfalso. apply H. rewrite <- (Qred_correct q). apply Qnum_zero_iff. lia.
Qed.

Lemma cmono_proper (q q' : Q) (r e : Z) :
  (q == q')%Q -> cmono q r e = cmono q' r e.
Proof. intros H. unfold cmono. by rewrite (qnorm_proper _ _ H). Qed.

Lemma cmono_zero (q : Q) (r e : Z) : (q == 0)%Q -> cmono q r e = ∅.
Proof. intros H. unfold cmono. by rewrite qnorm_zero. Qed.

Lemma cmono_nonzero (q : Q) (r e : Z) :
  ~ (q == 0)%Q -> cmono q r e = {[ (r, e) := Qred q ]}.
Proof. intros H. unfold cmono. by rewrite qnorm_nonzero. Qed.

Lemma cmono_not_empty (q : Q) (r e : Z) : ~ (q == 0)%Q -> cmono q r e <> ∅.
Proof.
  intros H. rewrite cmono_nonzero by done. intros E.
  apply (f_equal (fun c : Const => c !! (r, e))) in E.
  by rewrite lookup_singleton_eq, lookup_empty in E.
Qed.

Lemma cadd_empty_l (c : Const) : cadd ∅ c = c.
Proof.
  apply map_eq. intros i. unfold cadd.
  rewrite lookup_merge, lookup_empty. by destruct (c !! i).
Qed.


Lemma cmul_empty_l (c : Const) : cmul ∅ c = ∅.
Proof. unfold cmul. apply map_fold_empty. Qed.

Lemma cmul_empty_r (c : Const) : cmul c ∅ = ∅.
Proof.
  unfold cmul.
  apply (map_fold_weak_ind (fun (acc : Const) (_ : Const) => acc = ∅)); [done|].
  intros k q m acc _ ->. unfold cmul_term.
  by rewrite map_fold_empty, cadd_empty_l.
Qed.

Lemma cmul_singleton (k1 k2 : surd) (q1 q2 : Q) :
  cmul {[ k1 := q1 ]} {[ k2 := q2 ]}
  = cmono (q1 * q2 * inject_Z (Z.gcd k1.1 k2.1))
          ((k1.1 / Z.gcd k1.1 k2.1) * (k2.1 / Z.gcd k1.1 k2.1))
          (k1.2 + k2.2).
Proof.
  unfold cmul, cmul_term. rewrite !map_fold_singleton. simpl.
  by rewrite !cadd_empty_l.
Qed.

Lemma cmul_cmono (q1 q2 : Q) (r1 e1 r2 e2 : Z) :
  cmul (cmono q1 r1 e1) (cmono q2 r2 e2)
  = cmono (q1 * q2 * inject_Z (Z.gcd r1 r2))
          ((r1 / Z.gcd r1 r2) * (r2 / Z.gcd r1 r2)) (e1 + e2).
Proof.
  destruct (Qeq_dec q1 0) as [H1|H1].
  { rewrite (cmono_zero q1), cmul_empty_l by done.
    symmetry. apply cmono_zero. rewrite H1. ring. }
  destruct (Qeq_dec q2 0) as [H2|H2].
  { rewrite (cmono_zero q2), cmul_empty_r by done.
    symmetry. apply cmono_zero. rewrite H2. ring. }
  rewrite (cmono_nonzero q1), (cmono_nonzero q2), cmul_singleton by done.
  simpl. apply cmono_proper. by rewrite !Qred_correct.
Qed.

Lemma cmul_rat (q1 q2 : Q) (r e : Z) :
  cmul (crat q1) (cmono q2 r e) = cmono (q1 * q2) r e.
Proof.
  unfold crat. rewrite cmul_cmono.
  rewrite Z.gcd_1_l, !Z.div_1_r, Z.mul_1_l. simpl.
  apply cmono_proper. ring.
Qed.

Lemma cmul_cint (a b : Z) : cmul (cint a) (cint b) = cint (a * b).
Proof.
  unfold cint. unfold crat at 2. rewrite cmul_rat. unfold crat.
  apply cmono_proper. unfold inject_Z, Qeq, Qmult. simpl. lia.
Qed.

Lemma cint_not_empty (n : Z) : n <> 0 -> cint n <> ∅.
Proof.
  intros H. apply cmono_not_empty. unfold inject_Z, Qeq. simpl. lia.
Qed.

Lemma as_mono_singleton (k : surd) (q : Q) :
  as_mono {[ k := q ]} = Some (k, q).
Proof. unfold as_mono. by rewrite map_to_list_singleton. Qed.

Lemma as_mono_cmono (q : Q) (r e : Z) :
  ~ (q == 0)%Q -> as_mono (cmono q r e) = Some ((r, e), Qred q).
Proof. intros H. rewrite cmono_nonzero by done. apply as_mono_singleton. Qed.


Lemma is_zero_false (c : Const) : is_zero c = false <-> c <> ∅.
Proof. unfold is_zero. apply bool_decide_eq_false. Qed.

Lemma is_zero_cmono (q : Q) (r e : Z) :
  ~ (q == 0)%Q -> is_zero (cmono q r e) = false.
Proof. intros H. by apply is_zero_false, cmono_not_empty. Qed.

(** Division by a non-zero single summand. *)
Lemma ndiv_cmono (x : Const) (q : Q) (r e : Z) :
  ~ (q == 0)%Q ->
  ndiv (Fin x) (Fin (cmono q r e))
  = Ok (Fin (cmul x (cmono (/ (q * inject_Z r)) r (- e)))).
Proof.
  intros H. unfold ndiv. rewrite is_zero_cmono, as_mono_cmono by done.
  unfold cinv_mono. simpl. do 3 f_equal.
  apply cmono_proper. by rewrite Qred_correct.
Qed.

(** ** Square roots and half-integer factorials *)

(** The trial division keeps the product: [s'^2 * t = s^2 * n]. *)
Lemma sqf_loop_product (fuel : nat) (d n s : Z) :
  0 < d -> (sqf_loop fuel d n s).1 ^ 2 * (sqf_loop fuel d n s).2 = s ^ 2 * n.
Proof.
  revert d n s. induction fuel as [|fuel IH]; intros d n s Hd; simpl; [done|].
  destruct (n <? d * d); [done|].
  destruct (Z.eqb_spec (n mod (d * d)) 0) as [Hmod|Hmod].
  - rewrite IH by done.
    pose proof (Z.div_mod n (d * d) ltac:(nia)) as Hdm. nia.
  - apply IH. lia.
Qed.

Lemma sqf_split_product (n : Z) :
  (sqf_split n).1 ^ 2 * (sqf_split n).2 = n.
Proof. unfold sqf_split. rewrite sqf_loop_product by lia. lia. Qed.

(** The recurrence [Gamma(x + 1) = x * Gamma(x)] at the half-integers
    [x = n/2], from [Gamma(1/2) = sqrt(pi)]. *)
Lemma gamma_half_1 : gamma_half 1 = 1%Q.
Proof. reflexivity. Qed.

Lemma ghalf_down_step (t : nat) :
  (ghalf_down t
   == Qmake (- (2 * Z.of_nat t + 1)) 2 * ghalf_down (S t))%Q.
Proof.
  simpl ghalf_down.
  assert (Qmake (- (2 * Z.of_nat t + 1)) 2
          * Qmake (-2) (Pos.of_succ_nat (2 * t)) == 1)%Q as E.
  { unfold Qeq, Qmult. simpl Qnum. simpl Qden.
    rewrite Pos2Z.inj_mul, Zpos_P_of_succ_nat. lia. }
  rewrite (Qmult_comm (ghalf_down t)), Qmult_assoc, E. ring.
Qed.

Lemma gamma_half_step (n : Z) :
  Z.odd n = true -> (gamma_half (n + 2) == Qmake n 2 * gamma_half n)%Q.
Proof.
  intros Hodd.
  assert (exists t, n = 2 * t + 1) as [t ->].
  { exists (n / 2). rewrite (Z.div_mod n 2) at 1 by lia.
    rewrite Zmod_odd, Hodd. lia. }
  unfold gamma_half.
  destruct (Z.ltb_spec 0 (2 * t + 1)) as [Hpos|Hneg].
  - destruct (Z.ltb_spec 0 (2 * t + 1 + 2)); [|lia].
    replace ((2 * t + 1 + 2 - 1) / 2) with (t + 1)
      by (apply Z.div_unique with 0; lia).
    replace ((2 * t + 1 - 1) / 2) with t
      by (apply Z.div_unique with 0; lia).
    replace (Z.to_nat (t + 1)) with (S (Z.to_nat t)) by lia.
    simpl ghalf_up. rewrite Z2Nat.id by lia. ring.
  - replace ((1 - (2 * t + 1)) / 2) with (- t)
      by (apply Z.div_unique with 0; lia).
    assert (exists u : nat, - t = Z.of_nat (S u)) as [u Hu].
    { exists (Z.to_nat (- t - 1)). lia. }
    rewrite Hu, Nat2Z.id.
    assert (2 * t + 1 = - (2 * Z.of_nat u + 1)) as -> by lia.
    rewrite <- ghalf_down_step.
    destruct (Z.ltb_spec 0 (- (2 * Z.of_nat u + 1) + 2)) as [H0|H0].
    + assert (u = 0%nat) as -> by lia. reflexivity.
    + replace ((1 - (- (2 * Z.of_nat u + 1) + 2)) / 2) with (Z.of_nat u)
        by (apply Z.div_unique with 0; lia).
      by rewrite Nat2Z.id.
Qed.

(** ** The normalisation constants on the ranges of the loops *)

Lemma zfact_pos (n : nat) : 0 < zfact n.
Proof. induction n as [|n IH]; [done|]. change (0 < Z.of_nat (S n) * zfact n). lia. Qed.

Lemma factorial_nonneg (n : Z) :
  0 <= n -> factorial n = Fin (cint (zfact (Z.to_nat n))).
Proof. intros H. unfold factorial. by destruct (Z.ltb_spec n 0); [lia|]. Qed.

Lemma factorial_neg (n : Z) : n < 0 -> factorial n = Zoo.
Proof. intros H. unfold factorial. by destruct (Z.ltb_spec n 0); [|lia]. Qed.

Lemma inject_Z_nonzero (n : Z) : n <> 0 -> ~ (inject_Z n == 0)%Q.
Proof. unfold inject_Z, Qeq. simpl. lia. Qed.

Lemma ndiv_cint (x : Const) (n : Z) :
  n <> 0 -> exists v, ndiv (Fin x) (Fin (cint n)) = Ok (Fin v).
Proof.
  intros H. unfold cint, crat. rewrite ndiv_cmono; [eauto|].
  by apply inject_Z_nonzero.
Qed.

Lemma Qred_inject_Z (n : Z) : Qred (inject_Z n) = inject_Z n.
Proof.
  unfold inject_Z, Qred.
  pose proof (Z.ggcd_gcd n 1) as Hg. pose proof (Z.ggcd_correct_divisors n 1) as Hd.
  destruct (Z.ggcd n 1) as (g & a & b). simpl in *.
  rewrite Z.gcd_1_r in Hg. subst g. destruct Hd as [-> Hb].
  assert (b = 1) as -> by lia. simpl. f_equal. lia.
Qed.

Lemma as_Z_cint (n : Z) : as_Z (cint n) = Some n.
Proof.
  unfold as_Z. destruct (decide (n = 0)) as [->|Hn].
  - by rewrite decide_True by done.
  - rewrite decide_False by by apply cint_not_empty.
    unfold cint, crat. rewrite as_mono_cmono by by apply inject_Z_nonzero.
    by rewrite Qred_inject_Z.
Qed.

Lemma Rational_cint (a b : Z) :
  b <> 0 -> exists v, Rational (Fin (cint a)) (Fin (cint b)) = Ok (Fin v).
Proof.
  intros Hb. unfold Rational. rewrite !as_Z_cint. by apply ndiv_cint.
Qed.

Lemma ghalf_up_nonzero (t : nat) : ~ (ghalf_up t == 0)%Q.
Proof.
  induction t as [|t IH]; [done|]. simpl. intros H.
  apply Qmult_integral in H as [H|H]; [done|].
  revert H. unfold Qeq. simpl. lia.
Qed.

Lemma ghalf_down_nonzero (t : nat) : ~ (ghalf_down t == 0)%Q.
Proof.
  induction t as [|t IH]; [done|]. simpl. intros H.
  apply Qmult_integral in H as [H|H]; [done|].
  revert H. unfold Qeq. simpl. lia.
Qed.

Lemma gamma_half_nonzero (n : Z) : ~ (gamma_half n == 0)%Q.
Proof.
  unfold gamma_half. destruct (0 <? n).
  - apply ghalf_up_nonzero.
  - apply ghalf_down_nonzero.
Qed.

Lemma crat_zero_iff (q : Q) : crat q = ∅ <-> (q == 0)%Q.
Proof.
  split.
  - intros E. destruct (Qeq_dec q 0) as [|Hq]; [done|].
    by apply (cmono_not_empty q 1 0) in Hq.
  - apply cmono_zero.
Qed.

Lemma cmul_crat (a b : Q) : cmul (crat a) (crat b) = crat (a * b).
Proof. unfold crat at 2. apply cmul_rat. Qed.

Lemma cint_crat (n : Z) : cint n = crat (inject_Z n).
Proof. done. Qed.

Lemma ndiv_crat (a b : Q) :
  ~ (b == 0)%Q -> ndiv (Fin (crat a)) (Fin (crat b)) = Ok (Fin (crat (a / b))).
Proof.
  intros Hb. unfold crat at 2. rewrite ndiv_cmono by done.
  change (- 0) with 0. fold (crat (/ (b * inject_Z 1))). rewrite cmul_crat.
  do 2 f_equal. apply cmono_proper. unfold Qdiv.
  change (inject_Z 1) with 1%Q. by rewrite Qmult_1_r.
Qed.

Lemma ndiv_half (a b : Q) :
  ~ (b == 0)%Q ->
  ndiv (Fin (cmono a 1 1)) (Fin (cmono b 1 1)) = Ok (Fin (crat (a / b))).
Proof.
  intros Hb. rewrite ndiv_cmono by done. rewrite cmul_cmono.
  change (Z.gcd 1 1) with 1. change (1 / 1 * (1 / 1)) with 1.
  change (1 + - (1)) with 0. do 2 f_equal. apply cmono_proper. unfold Qdiv.
  change (inject_Z 1) with 1%Q. by rewrite !Qmult_1_r.
Qed.

(** [SB] is a rational number on the ranges of the loops; it is zero exactly
    where the lower factorial of its ratio is taken at a negative integer. *)
Lemma SB_rational (l m j k : Z) :
  0 <= j <= m -> 0 <= k <= l - m ->
  exists q : Q,
    SB l m j k = Ok (Fin (crat q))
    /\ ((q == 0)%Q <->
        Z.even (l + m + k - 1) = true /\ - l + m + k - 1 < 0).
Proof.
  intros Hj Hk. unfold SB.
  assert (exists r : Q,
             (a ← factorial_half (l + m + k - 1);
              b ← factorial_half (- l + m + k - 1); ndiv a b)
             = Ok (Fin (crat r))
             /\ ((r == 0)%Q <->
                 Z.even (l + m + k - 1) = true /\ - l + m + k - 1 < 0))
    as (r & -> & Hr).
  { unfold factorial_half.
    replace (- l + m + k - 1) with (l + m + k - 1 - 2 * l) by lia.
    rewrite Z.even_sub, Z.even_mul. cbn [Z.even orb].
    destruct (Z.even (l + m + k - 1)) eqn:E; cbn [Bool.eqb]; rsimpl.
    - assert (0 <= (l + m + k - 1) / 2).
      { apply Z.div_pos; [|lia].
        destruct (decide (l + m + k - 1 = -1)) as [Heq|]; [|lia].
        rewrite Heq in E. done. }
      rewrite (factorial_nonneg ((l + m + k - 1) / 2)) by done.
      destruct (Z.ltb_spec ((l + m + k - 1 - 2 * l) / 2) 0) as [Hneg|Hpos].
      + rewrite factorial_neg by done. cbn [ndiv]. exists 0%Q.
        split; [done|]. split; [|done]. intros _. split; [done|].
        destruct (Z.ltb_spec (l + m + k - 1 - 2 * l) 0); [done|].
        pose proof (Z.div_pos (l + m + k - 1 - 2 * l) 2). lia.
      + rewrite factorial_nonneg by done. rewrite !cint_crat.
        pose proof (zfact_pos (Z.to_nat ((l + m + k - 1) / 2))) as Ha.
        pose proof (zfact_pos (Z.to_nat ((l + m + k - 1 - 2 * l) / 2))) as Hb.
        rewrite ndiv_crat by (apply inject_Z_nonzero; lia).
        eexists. split; [done|]. split.
        * intros E0. exfalso. apply Qmult_integral in E0 as [E0|E0].
          -- revert E0. apply inject_Z_nonzero. lia.
          -- revert E0. unfold Qinv, inject_Z, Qeq. simpl.
             destruct (zfact (Z.to_nat ((l + m + k - 1 - 2 * l) / 2)));
               simpl; lia.
        * intros [_ Hlt]. exfalso.
          assert ((l + m + k - 1 - 2 * l) / 2 < 0); [|lia].
          apply Z.div_lt_upper_bound; lia.
    - rewrite ndiv_half by apply gamma_half_nonzero.
      eexists. split; [done|]. split; [|by intros [? _]].
      intros E0. exfalso. apply Qmult_integral in E0 as [E0|E0].
      + by apply gamma_half_nonzero in E0.
      + pose proof (gamma_half_nonzero (l + m + k - 1 - 2 * l + 2)) as Hg.
        apply Hg. rewrite <- (Qinv_involutive (gamma_half _)), E0. done. }
  rsimpl.
  unfold py_pow. destruct (Z.ltb_spec l 0); [lia|]. rsimpl.
  rewrite !factorial_nonneg by lia. rsimpl. rewrite !cmul_cint.
  unfold Rational. rewrite !as_Z_cint. rewrite !cint_crat.
  pose proof (zfact_pos (Z.to_nat m)) as Hfm.
  pose proof (zfact_pos (Z.to_nat j)). pose proof (zfact_pos (Z.to_nat k)).
  pose proof (zfact_pos (Z.to_nat (m - j))).
  pose proof (zfact_pos (Z.to_nat (l - m - k))).
  set (d := zfact (Z.to_nat j) * zfact (Z.to_nat k) * zfact (Z.to_nat (m - j))
            * zfact (Z.to_nat (l - m - k))) in *.
  assert (0 < d) as Hd by (unfold d; nia).
  rewrite ndiv_crat by (apply inject_Z_nonzero; lia).
  rsimpl. rewrite !cmul_crat. eexists. split; [done|].
  rewrite <- Hr. split.
  - intros E0. apply Qmult_integral in E0 as [E0|E0]; [|done]. exfalso.
    apply Qmult_integral in E0 as [E0|E0].
    + revert E0. apply inject_Z_nonzero. lia.
    + apply Qmult_integral in E0 as [E0|E0].
      * revert E0. apply inject_Z_nonzero. lia.
      * revert E0. unfold Qinv, inject_Z, Qeq. simpl. destruct d; simpl; lia.
  - intros ->. ring.
Qed.

Lemma SB_value (l m j k : Z) :
  0 <= j <= m -> 0 <= k <= l - m ->
  exists v, SB l m j k = Ok (Fin v)
            /\ (Z.even (l + m + k - 1) = true -> - l + m + k - 1 < 0 -> v = ∅).
Proof.
  intros Hj Hk. destruct (SB_rational l m j k Hj Hk) as (q & Hq & Hz).
  eexists. split; [done|]. intros He Hlt. apply crat_zero_iff, Hz. done.
Qed.

Lemma factorial_half_even (n : Z) :
  0 <= n -> Z.even n = true ->
  factorial_half n = Ok (Fin (cint (zfact (Z.to_nat (n / 2))))).
Proof.
  intros Hn He. unfold factorial_half. rewrite He.
  rewrite factorial_nonneg; [done|]. by apply Z.div_pos.
Qed.

Lemma SC_value (p q k : Z) :
  Z.even p = true -> Z.even q = true -> Z.even k = true ->
  0 <= q <= p -> p <= k ->
  exists v, SC p q k = Ok (Fin v).
Proof.
  intros Hp Hq Hk Hqp Hpk. unfold SC.
  rewrite !factorial_half_even by (rewrite ?Z.even_sub, ?Hp, ?Hq, ?Hk; done || lia).
  rsimpl. rewrite !cmul_cint.
  match goal with
  | |- context [ndiv (Fin ?x) (Fin (cint ?b))] =>
      destruct (ndiv_cint x b) as (w & ->)
  end; [|rsimpl; eauto].
  pose proof (zfact_pos (Z.to_nat (q / 2))).
  pose proof (zfact_pos (Z.to_nat ((k - p) / 2))).
  pose proof (zfact_pos (Z.to_nat ((p - q) / 2))). nia.
Qed.

Lemma Qnum_Qred_pos (q : Q) : (0 < q)%Q -> 0 < Qnum (Qred q).
Proof.
  intros H. rewrite <- (Qred_correct q) in H.
  revert H. unfold Qlt. simpl. lia.
Qed.

Lemma cmul_cint_l (a : Z) (q : Q) (r e : Z) :
  cmul (cint a) (cmono q r e) = cmono (inject_Z a * q) r e.
Proof. unfold cint. apply cmul_rat. Qed.

Lemma cmul_cint_r (a : Z) (q : Q) (r e : Z) :
  cmul (cmono q r e) (cint a) = cmono (q * inject_Z a) r e.
Proof.
  unfold cint, crat. rewrite cmul_cmono.
  rewrite Z.gcd_1_r, !Z.div_1_r, Z.mul_1_r, Z.add_0_r.
  apply cmono_proper. simpl. ring.
Qed.

Lemma SA_value (l m : Z) :
  0 <= l - m -> 0 <= l + m -> exists v, SA l m = Ok (Fin v).
Proof.
  intros H1 H2. unfold SA.
  rewrite !factorial_nonneg by done. rsimpl.
  rewrite !cmul_cint. unfold cpi. rewrite cmul_cint_l, cmul_cint_r.
  set (n := (2 - KroneckerDelta m 0) * (2 * l + 1) * zfact (Z.to_nat (l - m))).
  set (f := zfact (Z.to_nat (l + m))).
  assert (0 < n) as Hn.
  { pose proof (zfact_pos (Z.to_nat (l - m))). unfold n, KroneckerDelta.
    destruct (m =? 0); nia. }
  assert (0 < f) as Hf by apply zfact_pos.
  assert (0 < inject_Z 4 * 1 * inject_Z f)%Q as Hd.
  { unfold Qlt, Qmult, inject_Z. simpl. lia. }
  rewrite ndiv_cmono by (intros E; rewrite E in Hd; by apply Qlt_irrefl in Hd).
  rsimpl. rewrite cmul_cint_l.
  match goal with |- context [cmono ?q 1 ?e] => set (qq := q) end.
  assert (0 < qq)%Q as Hq.
  { unfold qq. apply Qmult_lt_0_compat.
    - unfold Qlt, inject_Z. simpl. lia.
    - apply Qinv_lt_0_compat. apply Qmult_lt_0_compat; [done|done]. }
  assert (~ (qq == 0)%Q) as Hq0.
  { intros E. rewrite E in Hq. by apply Qlt_irrefl in Hq. }
  unfold nsqrt. rewrite is_zero_cmono, as_mono_cmono by done.
  assert ((0 <? Qnum (Qred qq)) = true) as -> by (apply Z.ltb_lt, Qnum_Qred_pos, Hq).
  cbn [andb Z.even]. destruct (qsqrt (Qred qq)). eauto.
Qed.

(** ** The loops of [Y] *)

Lemma elem_of_range_even (b x : Z) :
  x ∈ range 0 b 2 -> 0 <= x < b /\ Z.even x = true.
Proof.
  intros H. apply elem_of_range in H as [Hb Hm]; [|lia].
  split; [lia|]. rewrite Z.sub_0_r in Hm.
  rewrite Zeven_mod. by apply Z.eqb_eq.
Qed.

Lemma elem_of_range_odd (b x : Z) :
  x ∈ range 1 b 2 -> 1 <= x < b /\ Z.even (x - 1) = true /\ Z.even x = false.
Proof.
  intros H. apply elem_of_range in H as [Hb Hm]; [|lia].
  split; [lia|].
  assert (Z.even (x - 1) = true) as He.
  { rewrite Zeven_mod. by apply Z.eqb_eq. }
  split; [done|].
  replace x with (x - 1 + 1) by lia. rewrite Z.even_add, He. done.
Qed.

Lemma accumulate_value (s l m j k p q kc : Z) (cz : nat) (res : pyobj) :
  0 <= s -> 0 <= j <= m -> 0 <= k <= l - m ->
  Z.even p = true -> Z.even q = true -> Z.even kc = true ->
  0 <= q <= p -> p <= kc ->
  exists x sb sc,
    SB l m j k = Ok (Fin sb)
    /\ accumulate s l m j k p q kc cz res
       = Ok (iadd res (eterm (cmul (cmul x sb) sc)
                         (Z.to_nat (m - j + p - q), Z.to_nat (j + q), cz))).
Proof.
  intros Hs Hj Hk Hp Hq Hkc Hqp Hpk. unfold accumulate.
  unfold py_pow. destruct (Z.ltb_spec s 0); [lia|]. rsimpl.
  destruct (SA_value l m) as (sa & ->); [lia..|]. rsimpl.
  destruct (SB_value l m j k) as (sb & Hsb & _); [lia..|]. rewrite Hsb. rsimpl.
  destruct (SC_value p q kc) as (sc & ->); [done..|]. rsimpl.
  unfold sym_pow.
  destruct (Z.ltb_spec (m - j + p - q) 0); [lia|]. rsimpl.
  destruct (Z.ltb_spec (j + q) 0); [lia|]. rsimpl.
  eauto.
Qed.

Lemma iadd_is_Sym (res : pyobj) (t : Expr) : is_Sym (iadd res t).
Proof. destruct res; simpl; unfold is_Sym; eauto. Qed.

Section Yloops.
Context (l ma j0 : Z) (sgn : Z -> Z -> Z) (I : pyobj -> Prop).
Hypothesis Hj0 : 0 <= j0 <= ma.
Hypothesis Hma : ma <= l.
Hypothesis Hsgn : forall j p, j0 <= j -> 0 <= p -> 0 <= sgn j p.
Hypothesis Hinit : I PyInt0.
Hypothesis Hstep : forall j k p q kc cz res x sb sc,
  j0 <= j <= ma -> 0 <= k <= l - ma -> 0 <= q <= p -> p <= kc <= k ->
  (cz = 0%nat -> kc = k /\ Z.even k = true) ->
  (cz <> 0%nat -> cz = 1%nat) ->
  SB l ma j k = Ok (Fin sb) ->
  I res ->
  I (iadd res (eterm (cmul (cmul x sb) sc)
                 (Z.to_nat (ma - j + p - q), Z.to_nat (j + q), cz))).

Lemma accumulate_step (j k p q kc : Z) (cz : nat) (res : pyobj) :
  j0 <= j <= ma -> 0 <= k <= l - ma ->
  Z.even p = true -> Z.even q = true -> Z.even kc = true ->
  0 <= q <= p -> p <= kc <= k ->
  (cz = 0%nat -> kc = k /\ Z.even k = true) ->
  (cz <> 0%nat -> cz = 1%nat) ->
  I res ->
  exists res', accumulate (sgn j p) l ma j k p q kc cz res = Ok res' /\ established I res'.
Proof.
  intros Hj Hk Hp Hq Hkc Hqp Hpk Hcz0 Hcz1 Hres.
  destruct (accumulate_value (sgn j p) l ma j k p q kc cz res)
    as (x & sb & sc & Hsb & ->); [apply Hsgn; lia | lia | lia | done.. | lia |].
  eexists. split; [done|]. split; [|apply iadd_is_Sym].
  by apply (Hstep j k p q kc cz res x sb sc).
Qed.

Lemma Yloops_inv : exists e, Yloops l ma j0 sgn = Ok (Sym e) /\ I (Sym e).
Proof.
  assert (forall o, established I o -> I o) as HQI by (by intros o [? ?]).
  cut (exists o, Yloops l ma j0 sgn = Ok o /\ established I o).
  { intros (o & Ho & Hi & e & ->). eauto. }
  unfold Yloops.
  apply (for_in_post I (established I)); [apply range_nonempty; lia | done | done |].
  intros j res Hj Hres.
  apply elem_of_range in Hj as [Hj _]; [|lia].
  (* the loop over even k runs at least once *)
  destruct (for_in_post I (established I) (range 0 (l - ma + 1) 2)
              (fun k res =>
                 for_in (range 0 (k + 1) 2) (fun p res =>
                   for_in (range 0 (p + 1) 2) (fun q res =>
                     accumulate (sgn j p) l ma j k p q k 0 res) res) res)
              res) as (res1 & -> & Hres1);
    [apply range_nonempty; lia | done | done | |].
  { intros k r Hk Hr. apply elem_of_range_even in Hk as [Hk Hke].
    apply (for_in_post I (established I)); [apply range_nonempty; lia | done | done |].
    intros p r' Hp Hr'. apply elem_of_range_even in Hp as [Hp Hpe].
    apply (for_in_post I (established I)); [apply range_nonempty; lia | done | done |].
    intros q r'' Hq Hr''. apply elem_of_range_even in Hq as [Hq Hqe].
    apply accumulate_step; try done; lia. }
  cbn [mbind result_bind].
  (* the loop over odd k keeps the invariant *)
  apply (for_in_inv (established I)); [done|].
  intros k r Hk Hr. apply elem_of_range_odd in Hk as (Hk & Hke & Hko).
  apply (for_in_inv (established I)); [done|].
  intros p r' Hp Hr'. apply elem_of_range_even in Hp as [Hp Hpe].
  apply (for_in_inv (established I)); [done|].
  intros q r'' Hq Hr''. apply elem_of_range_even in Hq as [Hq Hqe].
  apply accumulate_step; try done; try lia. by apply HQI.
Qed.
End Yloops.

Lemma Y_Yloops (l m : Z) :
  Y l m = if 0 <=? m then Yloops l m 0 (fun j p => (j + p) / 2)
          else Yloops l (Z.abs m) 1 (fun j p => (j + p - 1) / 2).
Proof. reflexivity. Qed.

(** Whatever the first summand establishes and every further one keeps
    holds of [Y(l, m)], which is a sympy expression for [|m| <= l]. *)
Lemma Y_inv (I : pyobj -> Prop) (l m : Z) :
  - l <= m <= l ->
  I PyInt0 ->
  (forall j k p q kc cz res x sb sc,
      (if 0 <=? m then 0 else 1) <= j <= Z.abs m ->
      0 <= k <= l - Z.abs m -> 0 <= q <= p -> p <= kc <= k ->
      (cz = 0%nat -> kc = k /\ Z.even k = true) ->
      (cz <> 0%nat -> cz = 1%nat) ->
      SB l (Z.abs m) j k = Ok (Fin sb) ->
      I res ->
      I (iadd res (eterm (cmul (cmul x sb) sc)
                     (Z.to_nat (Z.abs m - j + p - q), Z.to_nat (j + q), cz)))) ->
  exists e, Y l m = Ok (Sym e) /\ I (Sym e).
Proof.
  intros Hm Hinit Hstep. rewrite Y_Yloops.
  destruct (Z.leb_spec 0 m) as [Hpos|Hneg].
  - rewrite Z.abs_eq in Hstep by done.
    apply Yloops_inv; try done; try lia.
    intros j p ? ?. apply Z.div_pos; lia.
  - apply Yloops_inv; try done; try lia.
    intros j p ? ?. apply Z.div_pos; lia.
Qed.

Lemma Y_is_Sym (l m : Z) : - l <= m <= l -> exists e, Y l m = Ok (Sym e).
Proof.
  intros Hm. destruct (Y_inv (fun _ => True) l m) as (e & He & _); eauto.
Qed.

(** ** Expressions *)

Lemma cnorm_empty : cnorm ∅ = None.
Proof. done. Qed.

Lemma lookup_eadd (a b : Expr) (k : mono) :
  eadd a b !! k = cadd_opt (a !! k) (b !! k).
Proof.
  unfold eadd. rewrite lookup_merge.
  by destruct (a !! k), (b !! k).
Qed.

Lemma lookup_eterm (c : Const) (t k : mono) :
  eterm c t !! k = if decide (k = t) then cnorm c else None.
Proof.
  unfold eterm. destruct (cnorm c) as [v|].
  - rewrite lookup_singleton. by repeat case_decide.
  - rewrite lookup_empty. by case_decide.
Qed.

Lemma lookup_subs (v : var) (e : Expr) (k : mono) :
  subs v e !! k = if decide (exponent v k = 0%nat) then e !! k else None.
Proof.
  unfold subs. rewrite map_lookup_filter.
  destruct (e !! k) as [c|]; simpl; [|by case_decide].
  case_decide; [by rewrite option_guard_True | by rewrite option_guard_False].
Qed.

Lemma lookup_subs_zero (e : Expr) (k : mono) :
  subs_zero e !! k = if decide (k = mono1) then e !! k else None.
Proof.
  unfold subs_zero. rewrite !lookup_subs.
  destruct k as [[a b] c]. unfold mono1. simpl.
  repeat case_decide; try done; simplify_eq; done.
Qed.

Lemma subs_zero_constant (e : Expr) : is_constant (subs_zero e).
Proof.
  intros k c Hk. rewrite lookup_subs_zero in Hk. by case_decide.
Qed.

Lemma subs_zero_empty (e : Expr) : e !! mono1 = None -> subs_zero e = ∅.
Proof.
  intros H. apply map_empty. intros k. rewrite lookup_subs_zero.
  case_decide; by subst.
Qed.

(** *** Sums of summands with distinct monomials *)

Lemma lookup_esum_notin (l : list (mono * Const)) (k : mono) :
  k ∉ l.*1 -> esum l !! k = None.
Proof.
  induction l as [|[k' c'] l IH]; intros Hk; simpl.
  - apply lookup_empty.
  - apply not_elem_of_cons in Hk as [Hne Hk].
    rewrite lookup_eadd, lookup_eterm, IH by done. simpl in Hne.
    by rewrite decide_False.
Qed.

Lemma lookup_esum_in (l : list (mono * Const)) (k : mono) (c : Const) :
  NoDup l.*1 -> (k, c) ∈ l -> esum l !! k = cnorm c.
Proof.
  induction l as [|[k' c'] l IH]; intros Hnd Hin; simpl.
  - by apply elem_of_nil in Hin.
  - apply NoDup_cons in Hnd as [Hk' Hnd].
    rewrite lookup_eadd, lookup_eterm.
    apply elem_of_cons in Hin as [Heq|Hin].
    + simplify_eq. rewrite decide_True, lookup_esum_notin by done.
      by destruct (cnorm c').
    + rewrite decide_False, IH by (try done; intros ->; apply Hk';
        apply list_elem_of_fmap; by exists (k', c)).
      done.
Qed.

(** *** Matching a summand against a monomial *)

Lemma matches_spec (t s : mono) :
  matches t s = true <->
  forall v, exponent v t = 0%nat \/ exponent v s = exponent v t.
Proof.
  unfold matches, var_matches. rewrite !andb_true_iff, !bool_decide_eq_true.
  split.
  - intros [[? ?] ?] []; done.
  - intros H. repeat split; apply H.
Qed.

Lemma residue_inj (t s s' : mono) :
  matches t s = true -> matches t s' = true ->
  residue t s = residue t s' -> s = s'.
Proof.
  rewrite !matches_spec. intros Hs Hs' Hr.
  destruct s as [[a b] c], s' as [[a' b'] c']. unfold residue in Hr.
  pose proof (Hs vx) as Hx. pose proof (Hs vy) as Hy. pose proof (Hs vz) as Hz.
  pose proof (Hs' vx) as Hx'. pose proof (Hs' vy) as Hy'.
  pose proof (Hs' vz) as Hz'. simpl in *.
  repeat case_decide; simplify_eq; f_equal; try f_equal; lia.
Qed.

Lemma residue_mono1 (t s : mono) :
  matches t s = true -> residue t s = mono1 -> s = t.
Proof.
  rewrite matches_spec. intros Hs Hr.
  destruct s as [[a b] c], t as [[i j] k]. unfold residue, mono1 in Hr.
  pose proof (Hs vx) as Hx. pose proof (Hs vy) as Hy. pose proof (Hs vz) as Hz.
  simpl in *.
  repeat case_decide; simplify_eq; f_equal; try f_equal; lia.
Qed.

Lemma matches_refl (t : mono) : matches t t = true.
Proof. apply matches_spec. auto. Qed.

Lemma residue_refl (t : mono) : residue t t = mono1.
Proof.
  destruct t as [[i j] k]. unfold residue, mono1. simpl.
  repeat case_decide; by simplify_eq.
Qed.

Lemma elem_of_strip (t : mono) (l : list (mono * Const)) (k : mono) (c : Const) :
  (k, c) ∈ omap (strip t) l <->
  exists s, (s, c) ∈ l /\ matches t s = true /\ residue t s = k.
Proof.
  rewrite list_elem_of_omap. unfold strip. split.
  - intros ([s c'] & Hin & Hs). simpl in Hs.
    destruct (matches t s) eqn:E; simplify_eq. eauto.
  - intros (s & Hin & Hm & <-). exists (s, c). split; [done|].
    simpl. by rewrite Hm.
Qed.

Lemma NoDup_strip (t : mono) (l : list (mono * Const)) :
  NoDup l.*1 -> NoDup (omap (strip t) l).*1.
Proof.
  induction l as [|[s c] l IH]; intros Hnd; simpl; [constructor|].
  apply NoDup_cons in Hnd as [Hs Hnd].
  unfold strip at 1. simpl. destruct (matches t s) eqn:E; [|by apply IH].
  simpl. apply NoDup_cons. split; [|by apply IH].
  intros Hin. apply list_elem_of_fmap in Hin as ([k c'] & Hk & Hin).
  simpl in Hk. subst k.
  apply elem_of_strip in Hin as (s' & Hin & Hm & Hr).
  apply residue_inj in Hr; [|done..]. subst s'.
  apply Hs. apply list_elem_of_fmap. by exists (s, c').
Qed.

Lemma coeff_lookup_mono1 (e : Expr) (t : mono) :
  t <> mono1 -> coeff e t !! mono1 = cnorm (default ∅ (e !! t)).
Proof.
  intros Ht. unfold coeff. rewrite decide_False by done.
  destruct (e !! t) as [c|] eqn:E; simpl.
  - apply lookup_esum_in.
    + apply NoDup_strip, NoDup_fst_map_to_list.
    + apply elem_of_strip. exists t.
      rewrite elem_of_map_to_list, matches_refl, residue_refl. done.
  - rewrite cnorm_empty. apply lookup_esum_notin.
    intros Hin. apply list_elem_of_fmap in Hin as ([k c] & Hk & Hin).
    simpl in Hk. subst k.
    apply elem_of_strip in Hin as (s & Hin & Hm & Hr).
    apply residue_mono1 in Hr; [|done]. subst s.
    apply elem_of_map_to_list in Hin. congruence.
Qed.

Lemma Coefficient_value (e : Expr) (t : mono) :
  t <> mono1 -> Coefficient (Sym e) t = Ok (coefficient_of e t).
Proof.
  intros Ht. unfold Coefficient, coefficient_of. simpl. f_equal.
  apply map_eq. intros k.
  rewrite lookup_subs_zero, lookup_eterm.
  case_decide; [|done]. subst k. by apply coeff_lookup_mono1.
Qed.

(** *** The value of [Y] at the origin *)

Lemma origin_free_iadd (res : pyobj) (c : Const) (t : mono) :
  t <> mono1 \/ c = ∅ ->
  origin_free res -> origin_free (iadd res (eterm c t)).
Proof.
  intros Hc Hres.
  assert (eterm c t !! mono1 = None) as Ht.
  { rewrite lookup_eterm. destruct Hc as [Hne| ->]; [|by case_decide].
    by rewrite decide_False. }
  destruct res as [|e]; simpl in *; [done|].
  by rewrite lookup_eadd, Hres, Ht.
Qed.

Lemma Y_origin_free (l m : Z) :
  - l <= m <= l -> m <> 0 \/ Z.odd l = true ->
  exists e, Y l m = Ok (Sym e) /\ e !! mono1 = None.
Proof.
  intros Hm Hcase. apply (Y_inv origin_free); [done | done |].
  intros j k p q kc cz res x sb sc Hj Hk Hq Hp Hcz0 Hcz1 Hsb Hres.
  apply origin_free_iadd; [|done].
  destruct (decide (cz = 0%nat)) as [->|Hcz];
    [|left; unfold mono1; intros E; simplify_eq].
  destruct (Hcz0 eq_refl) as [-> Hke].
  destruct (decide (m = 0)) as [->|Hm0].
  - destruct Hcase as [?|Hodd]; [done|].
    change (Z.abs 0) with 0 in *. change (0 <=? 0) with true in Hj.
    assert (j = 0) as -> by lia.
    right. destruct (SB_value l 0 0 k) as (v & Hv & Hzero); [lia..|].
    rewrite Hsb in Hv. simplify_eq.
    rewrite Hzero; [by rewrite cmul_empty_r, cmul_empty_l| |lia].
    replace (l + 0 + k - 1) with (l - 1 + k) by lia.
    rewrite Z.even_add, Hke, Z.even_sub, <- Z.negb_odd, Hodd. done.
  - left. unfold mono1. intros E. simplify_eq.
    destruct (Z.leb_spec 0 m); lia.
Qed.

(** ** The polynomial basis *)

Lemma sym_pow_half_even (n : Z) :
  0 <= n -> Z.even n = true -> sym_pow_half n = Ok (Z.to_nat (n / 2)).
Proof.
  intros Hn He. unfold sym_pow_half, sym_pow. rewrite He.
  destruct (Z.ltb_spec (n / 2) 0) as [Hlt|]; [|done].
  pose proof (Z.div_pos n 2). lia.
Qed.

Lemma sqrt_index_bounds (n : Z) :
  0 <= n -> - Z.sqrt n <= n - Z.sqrt n * Z.sqrt n - Z.sqrt n <= Z.sqrt n.
Proof.
  intros Hn. pose proof (Z.sqrt_spec n Hn) as H. cbv zeta in H.
  unfold Z.succ in H. lia.
Qed.

Lemma even_halves (a : Z) : Z.even a = true -> 2 * (a / 2) = a.
Proof.
  intros H. apply Zeven_bool_iff, Zeven_div2 in H.
  rewrite Z.div2_div in H. lia.
Qed.

Lemma poly_basis_value (n : Z) :
  0 <= n -> poly_basis n = Ok (poly_basis_spec n).
Proof.
  intros Hn. unfold poly_basis, poly_basis_spec, floor_sqrt.
  destruct (Z.ltb_spec n 0); [lia|]. cbn [mbind result_bind]. cbv zeta.
  pose proof (sqrt_index_bounds n Hn) as Hm.
  replace (Z.sqrt n ^ 2) with (Z.sqrt n * Z.sqrt n) by lia.
  set (l := Z.sqrt n) in *. set (m := n - l * l - l) in *.
  rewrite <- Zeven_mod.
  assert (Z.even (l - m) = Z.even (l + m)) as Hpar.
  { by rewrite Z.even_sub, Z.even_add. }
  destruct (Z.even (l + m)) eqn:E.
  - rewrite !sym_pow_half_even by (done || lia). done.
  - assert (l + m <> 0) by (intros E0; by rewrite E0 in E).
    assert (l - m <> 0) by (intros E0; by rewrite E0 in Hpar).
    rewrite !sym_pow_half_even; [done|lia| |lia|].
    + by rewrite Z.even_sub, ?Hpar, ?E.
    + by rewrite Z.even_sub, ?Hpar, ?E.
Qed.

Lemma poly_basis_spec_exact (n : Z) :
  0 <= n ->
  let l := Z.sqrt n in
  let m := n - l ^ 2 - l in
  let t := poly_basis_spec n in
  2 * Z.of_nat t.1.1 + Z.of_nat t.2 = l - m
  /\ 2 * Z.of_nat t.1.2 + Z.of_nat t.2 = l + m
  /\ Z.of_nat t.2 = (l + m) mod 2.
Proof.
  intros Hn. cbn zeta. unfold poly_basis_spec.
  pose proof (sqrt_index_bounds n Hn) as Hm.
  replace (Z.sqrt n ^ 2) with (Z.sqrt n * Z.sqrt n) by lia.
  set (l := Z.sqrt n) in *. set (m := n - l * l - l) in *.
  assert (Z.even (l - m) = Z.even (l + m)) as Hpar.
  { by rewrite Z.even_sub, Z.even_add. }
  destruct (Z.even (l + m)) eqn:E; simpl.
  - pose proof (even_halves _ E). pose proof (even_halves _ Hpar).
    rewrite !Z2Nat.id by (apply Z.div_pos; lia).
    repeat split; try lia.
    symmetry. apply Z.eqb_eq. by rewrite <- Zeven_mod.
  - assert (l + m <> 0) by (intros E0; by rewrite E0 in E).
    assert (l - m <> 0) by (intros E0; by rewrite E0 in Hpar).
    assert (Z.even (l + m - 1) = true) as E1 by (by rewrite Z.even_sub, E).
    assert (Z.even (l - m - 1) = true) as E2 by (by rewrite Z.even_sub, Hpar).
    pose proof (even_halves _ E1). pose proof (even_halves _ E2).
    rewrite !Z2Nat.id by (apply Z.div_pos; lia).
    repeat split; try lia.
    replace (l + m) with (1 + ((l + m - 1) / 2) * 2) by lia.
    by rewrite Z.mod_add.
Qed.

(** ** The rows of coefficients [p_Y] *)

Lemma Coefficient_constant (e : Expr) (t : mono) :
  exists c, Coefficient (Sym e) t = Ok c /\ is_constant c.
Proof.
  unfold Coefficient. simpl. eexists. split; [done|]. apply subs_zero_constant.
Qed.

Lemma p_Y_value (l m lmax : Z) :
  - l <= m <= l -> 0 <= lmax ->
  exists v, p_Y l m lmax = Ok v
            /\ length v = Z.to_nat ((lmax + 1) ^ 2)
            /\ Forall is_constant v.
Proof.
  intros Hm Hlmax. unfold p_Y.
  destruct (Y_is_Sym l m Hm) as (e & ->).
  cbn [mbind result_bind at_origin as_expr].
  assert (1 <= (lmax + 1) ^ 2) as HN by nia.
  destruct (for_in_range
              (fun i res => length res = Z.to_nat i /\ Forall is_constant res)
              1 ((lmax + 1) ^ 2)
              (fun n res =>
                 t ← poly_basis n; c ← Coefficient (Sym e) t; Ok (res ++ [c]))
              [subs_zero e]) as (v & -> & Hlen & Hc); [done | | | eauto].
  - split; [done|]. repeat constructor. apply subs_zero_constant.
  - intros i res Hi [Hlen Hc]. rewrite poly_basis_value by lia.
    cbn [mbind result_bind].
    destruct (Coefficient_constant e (poly_basis_spec i)) as (c & -> & Hcc).
    cbn [mbind result_bind]. eexists. split; [done|]. split.
    + rewrite length_app, Hlen. simpl. lia.
    + apply Forall_app. split; [done|]. by repeat constructor.
Qed.

(** ** The matrix [A1] *)

Lemma copyin_col_length {A} (n i j : nat) (v m : list A) :
  length (copyin_col n i j v m) = length m.
Proof.
  revert i m. induction v as [|x v IH]; intros i m; simpl; [done|].
  by rewrite IH, length_insert.
Qed.

Lemma copyin_col_lookup {A} (n i0 c : nat) (v m : list A) (i j : nat) :
  (c < n)%nat -> (j < n)%nat -> (i < n)%nat ->
  (i0 + length v <= n)%nat -> length m = (n * n)%nat ->
  copyin_col n i0 c v m !! (i * n + j)%nat
  = if decide (j = c /\ (i0 <= i < i0 + length v)%nat) then v !! (i - i0)%nat
    else m !! (i * n + j)%nat.
Proof.
  intros Hc Hj Hi. revert i0 m.
  induction v as [|x v IH]; intros i0 m Hlen Hm; simpl.
  - rewrite decide_False by lia. done.
  - rewrite IH by (simpl in Hlen; rewrite ?length_insert; lia).
    destruct (decide (j = c /\ (S i0 <= i < S i0 + length v)%nat)) as [[-> Hr]|Hn].
    + rewrite decide_True by lia.
      replace (i - i0)%nat with (S (i - S i0)) by lia. done.
    + destruct (decide (j = c /\ i = i0)) as [[-> ->]|Hne].
      * rewrite decide_True by (simpl in Hlen; lia).
        rewrite Nat.sub_diag. simpl.
        apply list_lookup_insert_eq. rewrite Hm.
        assert (S i0 * n <= n * n)%nat by (apply Nat.mul_le_mono_r; lia). lia.
      * rewrite decide_False by lia.
        apply list_lookup_insert_ne. intros E.
        assert (i0 = i) by nia. subst i0. apply Hne. split; lia.
Qed.

Lemma pcol_index (lmax l m : Z) (v : list Expr) :
  0 <= l -> - l <= m <= l -> p_Y l m lmax = Ok v ->
  pcol lmax (Z.to_nat (index_lm l m)) = v.
Proof.
  intros Hl Hm Hv. unfold pcol, index_lm.
  rewrite Z2Nat.id by nia.
  assert (Z.sqrt (l * l + l + m) = l) as ->.
  { apply Z.sqrt_unique. nia. }
  replace (l * l + l + m - l * l - l) with m by lia. by rewrite Hv.
Qed.

Lemma cols_done_zeros (lmax : Z) :
  cols_done lmax 0 (zeros ((lmax + 1) ^ 2) ((lmax + 1) ^ 2)).
Proof.
  unfold cols_done, zeros. cbn [rows cols mat].
  repeat split; [by rewrite length_replicate|].
  intros i j Hi Hj. rewrite decide_False by lia.
  apply lookup_replicate_2. nia.
Qed.

Lemma setitem_column (lmax l m : Z) (a : Matrix Expr) :
  0 <= l <= lmax -> - l <= m <= l ->
  cols_done lmax (index_lm l m) a ->
  exists v a', p_Y l m lmax = Ok v
               /\ setitem a (index_lm l m) v = Ok a'
               /\ cols_done lmax (index_lm l m + 1) a'.
Proof.
  intros Hl Hm (Hr & Hc & Hlen & Hget).
  destruct (p_Y_value l m lmax) as (v & Hv & Hvlen & _); [lia..|].
  set (n := Z.to_nat ((lmax + 1) ^ 2)) in *.
  assert (0 <= index_lm l m < Z.of_nat n) as Hidx by (unfold index_lm; nia).
  exists v. unfold setitem. rewrite Hr, Hc, Hvlen.
  destruct (Z.ltb_spec (index_lm l m) 0); [lia|].
  destruct (Z.ltb_spec (index_lm l m) 0); [lia|].
  destruct (Z.leb_spec (Z.of_nat (n * n)) (index_lm l m)); [nia|].
  rewrite Z.div_small, Z.mod_small by lia.
  change (Z.to_nat 0) with 0%nat. cbn [orb Nat.add].
  destruct (Nat.ltb_spec n n); [lia|].
  eexists. split; [done|]. split; [done|].
  unfold cols_done. cbn [rows cols mat]. fold n.
  repeat split; [by rewrite copyin_col_length|].
  intros i j Hi Hj.
  rewrite copyin_col_lookup by lia.
  destruct (decide (j = Z.to_nat (index_lm l m) /\ (0 <= i < 0 + length v)%nat))
    as [[-> _]|Hne].
  - rewrite decide_True by lia.
    rewrite (pcol_index lmax l m v) by (done || lia).
    rewrite Nat.sub_0_r.
    destruct (lookup_lt_is_Some_2 v i) as [x Hx]; [lia|]. by rewrite Hx.
  - rewrite Hget by done. f_equal.
    destruct (decide (Z.of_nat j < index_lm l m)).
    + by rewrite decide_True by lia.
    + by rewrite decide_False by lia.
Qed.

Lemma A1_loops (lmax : Z) :
  0 <= lmax ->
  exists st,
    for_in (range 0 (lmax + 1) 1) (fun l st =>
      for_in (range (- l) (l + 1) 1) (fun m st =>
        v ← p_Y l m lmax;
        res ← setitem st.1 st.2 v;
        Ok (res, st.2 + 1)) st)
      (zeros ((lmax + 1) ^ 2) ((lmax + 1) ^ 2), 0) = Ok st
    /\ cols_done lmax ((lmax + 1) ^ 2) st.1.
Proof.
  intros Hlmax.
  destruct (for_in_range
              (fun l (st : Matrix Expr * Z) =>
                 st.2 = l * l /\ cols_done lmax (l * l) st.1)
              0 (lmax + 1)
              (fun l st =>
                 for_in (range (- l) (l + 1) 1) (fun m st =>
                   v ← p_Y l m lmax;
                   res ← setitem st.1 st.2 v;
                   Ok (res, st.2 + 1)) st)
              (zeros ((lmax + 1) ^ 2) ((lmax + 1) ^ 2), 0))
    as (st & Hrun & Hn & Hdone); [lia | | |].
  - split; [done|]. apply cols_done_zeros.
  - intros l st Hl [Hn Hdone].
    destruct (for_in_range
                (fun m (st : Matrix Expr * Z) =>
                   st.2 = index_lm l m /\ cols_done lmax (index_lm l m) st.1)
                (- l) (l + 1)
                (fun m st =>
                   v ← p_Y l m lmax;
                   res ← setitem st.1 st.2 v;
                   Ok (res, st.2 + 1))
                st) as (st' & Hrun & Hn' & Hdone'); [lia | | |].
    + unfold index_lm. replace (l * l + l + - l) with (l * l) by lia. done.
    + intros m s Hm [Hs Hd].
      destruct (setitem_column lmax l m s.1) as (v & a' & -> & Hset & Hd');
        [lia | lia | done |].
      cbn [mbind result_bind]. rewrite Hs, Hset. cbn [mbind result_bind].
      eexists. split; [done|]. simpl.
      split; [unfold index_lm; lia|].
      by replace (index_lm l (m + 1)) with (index_lm l m + 1)
        by (unfold index_lm; lia).
    + exists st'. split; [done|].
      replace ((l + 1) * (l + 1)) with (index_lm l (l + 1))
        by (unfold index_lm; lia). done.
  - exists st. split; [done|].
    by replace ((lmax + 1) ^ 2) with ((lmax + 1) * (lmax + 1)) by lia.
Qed.

Lemma A1_value (lmax : Z) (norm : Const) :
  0 <= lmax ->
  let n := Z.to_nat ((lmax + 1) ^ 2) in
  exists a, A1 lmax norm = Ok a
            /\ rows a = n /\ cols a = n /\ length (mat a) = (n * n)%nat
            /\ forall i j : nat, (i < n)%nat -> (j < n)%nat ->
                 mat a !! (i * n + j)%nat
                 = Some (escale (default ∅ (pcol lmax j !! i)) norm).
Proof.
  intros Hlmax n. unfold A1.
  destruct (A1_loops lmax Hlmax) as (st & -> & Hr & Hc & Hlen & Hget).
  cbn [mbind result_bind]. eexists. split; [done|].
  unfold mscale. cbn [rows cols mat]. fold n in Hr, Hc, Hlen, Hget.
  repeat split; [done | done | by rewrite length_fmap |].
  intros i j Hi Hj. rewrite list_lookup_fmap, Hget by done.
  rewrite decide_True; [done|]. lia.
Qed.

(** ** Constant entries *)

Lemma is_constant_empty : is_constant ∅.
Proof. apply map_Forall_empty. Qed.

Lemma is_constant_escale (e : Expr) (c : Const) :
  is_constant e -> is_constant (escale e c).
Proof.
  intros He k x Hk. unfold escale in Hk.
  apply lookup_omap_Some in Hk as (y & _ & Hy). by apply (He k y).
Qed.

Lemma pcol_constant (lmax : Z) (j i : nat) :
  0 <= lmax -> is_constant (default ∅ (pcol lmax j !! i)).
Proof.
  intros Hlmax. unfold pcol.
  destruct (p_Y_value (Z.sqrt (Z.of_nat j))
              (Z.of_nat j - Z.sqrt (Z.of_nat j) * Z.sqrt (Z.of_nat j)
               - Z.sqrt (Z.of_nat j)) lmax) as (v & -> & _ & Hc);
    [apply sqrt_index_bounds; lia | done |].
  destruct (v !! i) as [x|] eqn:E; simpl; [|apply is_constant_empty].
  by apply (Forall_lookup_1 _ _ _ _ Hc E).
Qed.

Lemma A1_constant (lmax : Z) (norm : Const) :
  0 <= lmax -> exists a, A1 lmax norm = Ok a /\ Forall is_constant (mat a).
Proof.
  intros Hlmax.
  destruct (A1_value lmax norm Hlmax) as (a & Ha & Hr & Hc & Hlen & Hget).
  exists a. split; [done|].
  set (n := Z.to_nat ((lmax + 1) ^ 2)) in *.
  apply Forall_lookup. intros idx x Hx.
  assert (idx < n * n)%nat as Hidx.
  { rewrite <- Hlen. by apply lookup_lt_Some in Hx. }
  assert (0 < n)%nat as Hn by lia.
  assert (idx = (idx / n) * n + idx mod n)%nat as Hdm.
  { pose proof (Nat.div_mod_eq idx n). lia. }
  rewrite Hdm, Hget in Hx.
  - simplify_eq. by apply is_constant_escale, pcol_constant.
  - apply Nat.Div0.div_lt_upper_bound. lia.
  - apply Nat.mod_upper_bound. lia.
Qed.

Lemma fmap_by_index {A B} (f : A -> B) (d : A) (v : list A) :
  f <$> v = (fun i => f (default d (v !! i))) <$> seq 0 (length v).
Proof.
  apply list_eq. intros i. rewrite !list_lookup_fmap.
  destruct (v !! i) as [x|] eqn:E; simpl.
  - rewrite lookup_seq_lt by by apply lookup_lt_Some in E. simpl. by rewrite E.
  - rewrite lookup_seq_ge; [done|]. by apply lookup_ge_None.
Qed.

Lemma A1_col_of_index (lmax : Z) (norm : Const) (l m : Z) :
  0 <= l <= lmax -> - l <= m <= l ->
  exists a v,
    A1 lmax norm = Ok a /\ p_Y l m lmax = Ok v
    /\ col_of a (Z.to_nat (index_lm l m)) = (fun e => escale e norm) <$> v.
Proof.
  intros Hl Hm.
  destruct (A1_value lmax norm) as (a & Ha & Hr & Hc & Hlen & Hget); [lia|].
  destruct (p_Y_value l m lmax) as (v & Hv & Hvlen & _); [lia..|].
  exists a, v. split; [done|]. split; [done|].
  set (n := Z.to_nat ((lmax + 1) ^ 2)) in *.
  rewrite (fmap_by_index _ ∅), Hvlen. unfold col_of. rewrite Hr, Hc.
  apply Forall_fmap_ext, Forall_forall. intros i Hi.
  apply elem_of_seq in Hi.
  assert (0 <= index_lm l m < Z.of_nat n) by (unfold index_lm; nia).
  rewrite Hget by lia.
  by rewrite (pcol_index lmax l m v) by (done || lia).
Qed.

(** ** The notebook's recorded output *)

(** The matrix the notebook displays for [M = Matrix(A1(2)).inv()]. *)
Lemma M_value :
  M = Ok (mkMatrix 9 9
    [cpi; ∅; ∅; ∅; surd_pi (1 # 3) 1; ∅; ∅; ∅; surd_pi (1 # 3) 1;
     ∅; ∅; ∅; surd_pi (1 # 3) 3; ∅; ∅; ∅; ∅; ∅;
     ∅; ∅; surd_pi (1 # 3) 3; ∅; ∅; ∅; ∅; ∅; ∅;
     ∅; surd_pi (1 # 3) 3; ∅; ∅; ∅; ∅; ∅; ∅; ∅;
     ∅; ∅; ∅; ∅; ∅; ∅; surd_pi (1 # 15) 15; ∅; ∅;
     ∅; ∅; ∅; ∅; ∅; ∅; ∅; surd_pi (1 # 15) 15; ∅;
     ∅; ∅; ∅; ∅; surd_pi (-1 # 15) 5; ∅; ∅; ∅; surd_pi (-1 # 15) 5;
     ∅; ∅; ∅; ∅; ∅; surd_pi (1 # 15) 15; ∅; ∅; ∅;
     ∅; ∅; ∅; ∅; surd_pi (1 # 15) 15; ∅; ∅; ∅; surd_pi (-1 # 15) 15]).
Proof. by_evaluation. Qed.

(** For the degrees up to 3 the matrix is invertible and its product with
    its inverse is the identity matrix. *)
Lemma round_trip_upto_3 :
  round_trip 0 = Ok (eye 1) /\ round_trip 1 = Ok (eye 4)
  /\ round_trip 2 = Ok (eye 9) /\ round_trip 3 = Ok (eye 16).
Proof. repeat split; by_evaluation. Qed.

(** ** The polynomial basis as an enumeration *)

Lemma poly_basis_spec_degree (n : Z) :
  0 <= n -> Z.of_nat (degree (poly_basis_spec n)) = Z.sqrt n
            /\ ((poly_basis_spec n).2 <= 1)%nat.
Proof.
  intros Hn. pose proof (poly_basis_spec_exact n Hn) as H. cbv zeta in H.
  destruct H as (H1 & H2 & H3).
  pose proof (Z.mod_pos_bound (Z.sqrt n + (n - Z.sqrt n ^ 2 - Z.sqrt n)) 2).
  unfold degree. split; lia.
Qed.

Lemma mono_index_poly_basis_spec (n : Z) :
  0 <= n -> mono_index (poly_basis_spec n) = n.
Proof.
  intros Hn. pose proof (poly_basis_spec_exact n Hn) as H. cbv zeta in H.
  destruct H as (H1 & H2 & H3).
  destruct (poly_basis_spec_degree n Hn) as [Hd _].
  unfold mono_index. rewrite Hd. unfold index_lm. unfold degree in Hd. lia.
Qed.

Lemma poly_basis_spec_mono_index (t : mono) :
  (t.2 <= 1)%nat -> poly_basis_spec (mono_index t) = t.
Proof.
  destruct t as [[i j] k]. simpl. intros Hk.
  unfold poly_basis_spec, mono_index, index_lm, degree. simpl.
  set (l := Z.of_nat (i + j + k)).
  assert (Z.sqrt (l * l + l + (Z.of_nat j - Z.of_nat i)) = l) as ->.
  { apply Z.sqrt_unique. unfold l. nia. }
  replace (l * l + l + (Z.of_nat j - Z.of_nat i) - l ^ 2 - l)
    with (Z.of_nat j - Z.of_nat i) by lia.
  replace (l + (Z.of_nat j - Z.of_nat i))
    with (2 * Z.of_nat j + Z.of_nat k) by (unfold l; lia).
  replace (l - (Z.of_nat j - Z.of_nat i))
    with (2 * Z.of_nat i + Z.of_nat k) by (unfold l; lia).
  destruct k as [|[|k]]; [| |lia].
  - change (Z.of_nat 0) with 0. rewrite !Z.add_0_r.
    rewrite Z.even_mul. cbn [Z.even orb].
    rewrite !(Z.mul_comm 2), !Z.div_mul by lia. by rewrite !Nat2Z.id.
  - change (Z.of_nat 1) with 1.
    rewrite Z.even_add, Z.even_mul. cbn [Z.even orb Bool.eqb].
    replace (2 * Z.of_nat i + 1 - 1) with (Z.of_nat i * 2) by lia.
    replace (2 * Z.of_nat j + 1 - 1) with (Z.of_nat j * 2) by lia.
    rewrite !Z.div_mul by lia. by rewrite !Nat2Z.id.
Qed.

Lemma mono_index_bounds (t : mono) :
  0 <= mono_index t < (Z.of_nat (degree t) + 1) ^ 2.
Proof.
  destruct t as [[i j] k]. unfold mono_index, index_lm, degree. simpl. nia.
Qed.

(** ** The square root of [SA] *)

Lemma sqf_loop_pos (fuel : nat) (d n s : Z) :
  0 < d -> 0 < n -> 0 < s ->
  0 < (sqf_loop fuel d n s).1 /\ 0 < (sqf_loop fuel d n s).2.
Proof.
  revert d n s. induction fuel as [|fuel IH]; intros d n s Hd Hn Hs; simpl;
    [done|].
  destruct (n <? d * d); [done|].
  destruct (Z.eqb_spec (n mod (d * d)) 0) as [Hmod|Hmod].
  - apply IH; [done| |nia].
    pose proof (Z.div_mod n (d * d) ltac:(nia)) as Hdm.
    rewrite Hmod, Z.add_0_r in Hdm.
    destruct (Z.lt_ge_cases 0 (n / (d * d))); [done|nia].
  - apply IH; lia.
Qed.

Lemma qsqrt_square (q : Q) :
  (0 < q)%Q ->
  ((qsqrt q).1 * (qsqrt q).1 * inject_Z (qsqrt q).2 == q)%Q
  /\ 0 < (qsqrt q).2 /\ (0 < (qsqrt q).1)%Q.
Proof.
  intros Hq. unfold qsqrt.
  assert (0 < Qnum q) as Ha by (revert Hq; unfold Qlt; simpl; lia).
  pose proof (sqf_split_product (Qnum q * Z.pos (Qden q))) as Hp.
  destruct (sqf_loop_pos (Z.to_nat (Z.sqrt (Qnum q * Z.pos (Qden q))
                                    + Z.log2 (Qnum q * Z.pos (Qden q)) + 1))
              2 (Qnum q * Z.pos (Qden q)) 1) as [Hs Ht]; [lia..|].
  fold (sqf_split (Qnum q * Z.pos (Qden q))) in Hs, Ht.
  destruct (sqf_split (Qnum q * Z.pos (Qden q))) as [s t]. simpl in *.
  split; [|split; [done|]].
  - unfold Qeq, Qmult, inject_Z. simpl. rewrite Pos2Z.inj_mul. nia.
  - unfold Qlt. simpl. lia.
Qed.

Lemma cmul_self (q : Q) (r e : Z) :
  0 < r -> cmul (cmono q r e) (cmono q r e)
           = cmono (q * q * inject_Z r) 1 (e + e).
Proof.
  intros Hr. rewrite cmul_cmono. rewrite Z.gcd_diag, Z.abs_eq by lia.
  rewrite Z.div_same by lia. done.
Qed.

(** [SA(l, m)^2 = (2 - delta(m, 0)) (2 l + 1) (l - m)! / (4 pi (l + m)!)] *)
Lemma SA_square (l m : Z) :
  0 <= l - m -> 0 <= l + m ->
  exists sa, SA l m = Ok (Fin sa)
             /\ sa <> ∅
             /\ cmul sa sa = cmono (SA_radicand l m) 1 (-2).
Proof.
  intros H1 H2. unfold SA.
  rewrite !factorial_nonneg by done. rsimpl.
  rewrite !cmul_cint. unfold cpi. rewrite cmul_cint_l, cmul_cint_r.
  set (n := (2 - KroneckerDelta m 0) * (2 * l + 1) * zfact (Z.to_nat (l - m))).
  set (f := zfact (Z.to_nat (l + m))).
  assert (0 < n) as Hn.
  { pose proof (zfact_pos (Z.to_nat (l - m))). unfold n, KroneckerDelta.
    destruct (m =? 0); nia. }
  assert (0 < f) as Hf by apply zfact_pos.
  assert (0 < inject_Z 4 * 1 * inject_Z f)%Q as Hd.
  { unfold Qlt, Qmult, inject_Z. simpl. lia. }
  rewrite ndiv_cmono by (intros E; rewrite E in Hd; by apply Qlt_irrefl in Hd).
  rsimpl. rewrite cmul_cint_l.
  match goal with |- context [cmono ?q 1 ?e] => set (qq := q) end.
  assert (qq == SA_radicand l m)%Q as Hqq.
  { unfold qq, SA_radicand. fold n f.
    unfold Qeq, Qmult, Qinv, inject_Z. simpl.
    destruct f as [|pf|pf] eqn:Ef; try lia. simpl. lia. }
  assert (0 < qq)%Q as Hq.
  { rewrite Hqq. unfold SA_radicand. fold n. unfold Qlt. simpl. lia. }
  assert (~ (qq == 0)%Q) as Hq0.
  { intros E. rewrite E in Hq. by apply Qlt_irrefl in Hq. }
  unfold nsqrt. rewrite is_zero_cmono, as_mono_cmono by done.
  assert ((0 <? Qnum (Qred qq)) = true) as -> by (apply Z.ltb_lt, Qnum_Qred_pos, Hq).
  cbn [andb Z.even].
  assert (0 < Qred qq)%Q as Hqr by (by rewrite Qred_correct).
  destruct (qsqrt_square (Qred qq) Hqr) as (Hsq & Ht & Hf1).
  destruct (qsqrt (Qred qq)) as [g t]. simpl in *.
  eexists. split; [done|]. split.
  - apply cmono_not_empty. intros E. rewrite E in Hf1. by apply Qlt_irrefl in Hf1.
  - rewrite cmul_self by done. change (-2 / 2 + -2 / 2) with (-2).
    apply cmono_proper. by rewrite Hsq, Qred_correct.
Qed.

(** ** The ratio of factorials in [SB] is a falling factorial *)

Lemma falling_ext (a b : Q) (l : nat) :
  (a == b)%Q -> (falling a l == falling b l)%Q.
Proof.
  intros H. induction l as [|l IH]; [done|]. cbn [falling]. by rewrite IH, H.
Qed.

Lemma falling_zero (a l : nat) :
  (a < l)%nat -> (falling (inject_Z (Z.of_nat a)) l == 0)%Q.
Proof.
  induction l as [|l IH]; intros Hl; [lia|]. simpl.
  destruct (decide (a = l)) as [->|Hne].
  - assert (inject_Z (Z.of_nat l) - inject_Z (Z.of_nat l) == 0)%Q as ->
      by ring. ring.
  - rewrite IH by lia. ring.
Qed.

Lemma zfact_succ (n : nat) : zfact (S n) = Z.of_nat (S n) * zfact n.
Proof. done. Qed.

Lemma falling_zfact (a l : nat) :
  (l <= a)%nat ->
  (inject_Z (zfact a) / inject_Z (zfact (a - l))
   == falling (inject_Z (Z.of_nat a)) l)%Q.
Proof.
  induction l as [|l IH]; intros Hl.
  - rewrite Nat.sub_0_r. simpl. field.
    apply inject_Z_nonzero. pose proof (zfact_pos a). lia.
  - simpl. rewrite <- IH by lia.
    replace (a - l)%nat with (S (a - S l)) by lia.
    rewrite zfact_succ.
    pose proof (zfact_pos (a - S l)) as Hp.
    rewrite inject_Z_mult.
    assert (inject_Z (Z.of_nat a) - inject_Z (Z.of_nat l)
            == inject_Z (Z.of_nat (S (a - S l))))%Q as ->.
    { unfold Qeq, Qminus, Qplus, Qopp, inject_Z. simpl. lia. }
    field. split.
    + apply inject_Z_nonzero. lia.
    + apply inject_Z_nonzero. lia.
Qed.

Lemma falling_gamma_half (n : Z) (l : nat) :
  Z.odd n = true ->
  (gamma_half (n + 2) / gamma_half (n + 2 - 2 * Z.of_nat l)
   == falling (Qmake n 2) l)%Q.
Proof.
  intros Hodd. induction l as [|l IH].
  - cbn [falling]. replace (n + 2 - 2 * Z.of_nat 0) with (n + 2) by lia.
    apply Qmult_inv_r, gamma_half_nonzero.
  - cbn [falling]. rewrite <- IH.
    assert (Z.odd (n - 2 * Z.of_nat l) = true) as Ho.
    { by rewrite Z.odd_sub, Z.odd_mul, Hodd. }
    pose proof (gamma_half_step (n - 2 * Z.of_nat l) Ho) as Hs.
    replace (n - 2 * Z.of_nat l + 2) with (n + 2 - 2 * Z.of_nat l) in Hs by lia.
    replace (n + 2 - 2 * Z.of_nat (S l)) with (n - 2 * Z.of_nat l) by lia.
    rewrite Hs.
    assert (Qmake n 2 - inject_Z (Z.of_nat l)
            == Qmake (n - 2 * Z.of_nat l) 2)%Q as ->.
    { unfold Qeq, Qminus, Qplus, Qopp, inject_Z. simpl. lia. }
    pose proof (gamma_half_nonzero (n - 2 * Z.of_nat l)) as Hg.
    assert (~ (Qmake (n - 2 * Z.of_nat l) 2 == 0)%Q) as Hc.
    { intros E. assert (n - 2 * Z.of_nat l = 0) as E0
        by (revert E; unfold Qeq; simpl; lia).
      rewrite E0 in Ho. done. }
    set (g1 := gamma_half (n + 2)) in *.
    set (g0 := gamma_half (n - 2 * Z.of_nat l)) in *.
    set (c := Qmake (n - 2 * Z.of_nat l) 2) in *.
    field. split; done.
Qed.

(** The ratio [factorial((n)/2) / factorial((n - 2 l)/2)] of [SB], whichever
    way [factorial] takes: integers, [zoo], or half-integers. *)
Lemma ratio_falling (n l : Z) :
  -1 <= n -> 0 <= l ->
  exists r : Q,
    (a ← factorial_half n; b ← factorial_half (n - 2 * l); ndiv a b)
    = Ok (Fin (crat r))
    /\ (r == falling (Qmake n 2) (Z.to_nat l))%Q.
Proof.
  intros Hn Hl. unfold factorial_half.
  rewrite Z.even_sub, Z.even_mul. cbn [Z.even orb].
  destruct (Z.even n) eqn:E; cbn [Bool.eqb]; rsimpl.
  - assert (0 <= n) as Hn0.
    { destruct (decide (n = -1)) as [->|]; [done|lia]. }
    assert (n = 2 * (n / 2)) as Hn2.
    { apply Zeven_bool_iff, Zeven_div2 in E. rewrite Z.div2_div in E. lia. }
    assert (Qmake n 2 == inject_Z (Z.of_nat (Z.to_nat (n / 2))))%Q as Hq.
    { unfold Qeq, inject_Z. simpl. lia. }
    assert ((n - 2 * l) / 2 = n / 2 - l) as Hb.
    { symmetry. apply Z.div_unique with 0; lia. }
    rewrite Hb. rewrite (factorial_nonneg (n / 2)) by lia.
    destruct (Z.ltb_spec (n / 2 - l) 0) as [Hneg|Hpos].
    + rewrite factorial_neg by done. cbn [ndiv]. exists 0%Q.
      split; [done|]. rewrite (falling_ext _ _ _ Hq).
      symmetry. apply falling_zero. lia.
    + rewrite factorial_nonneg by done. rewrite !cint_crat.
      rewrite ndiv_crat
        by (apply inject_Z_nonzero;
            pose proof (zfact_pos (Z.to_nat (n / 2 - l))); lia).
      eexists. split; [done|]. rewrite (falling_ext _ _ _ Hq).
      replace (Z.to_nat (n / 2 - l)) with (Z.to_nat (n / 2) - Z.to_nat l)%nat
        by lia.
      apply falling_zfact. lia.
  - rewrite ndiv_half by apply gamma_half_nonzero.
    eexists. split; [done|].
    replace (n - 2 * l + 2) with (n + 2 - 2 * Z.of_nat (Z.to_nat l)) by lia.
    apply falling_gamma_half. by rewrite <- Z.negb_even, E.
Qed.

Lemma SB_closed_form (l m j k : Z) :
  0 <= j <= m -> 0 <= k <= l - m ->
  SB l m j k = Ok (Fin (crat (SB_closed l m j k))).
Proof.
  intros Hj Hk. unfold SB.
  replace (- l + m + k - 1) with (l + m + k - 1 - 2 * l) by lia.
  destruct (ratio_falling (l + m + k - 1) l) as (r & -> & Hr); [lia..|].
  rsimpl.
  unfold py_pow. destruct (Z.ltb_spec l 0); [lia|]. rsimpl.
  rewrite !factorial_nonneg by lia. rsimpl. rewrite !cmul_cint.
  unfold Rational. rewrite !as_Z_cint. rewrite !cint_crat.
  pose proof (zfact_pos (Z.to_nat j)). pose proof (zfact_pos (Z.to_nat k)).
  pose proof (zfact_pos (Z.to_nat (m - j))).
  pose proof (zfact_pos (Z.to_nat (l - m - k))).
  rewrite ndiv_crat by (apply inject_Z_nonzero; nia).
  rsimpl. rewrite !cmul_crat. do 2 f_equal.
  apply cmono_proper. unfold SB_closed. by rewrite Hr.
Qed.

(** ** The binomial weights [SC] *)

Lemma SC_closed_form (p q k : Z) :
  Z.even p = true -> Z.even q = true -> Z.even k = true ->
  0 <= q <= p -> p <= k ->
  SC p q k = Ok (Fin (crat (SC_closed p q k))).
Proof.
  intros Hp Hq Hk Hqp Hpk. unfold SC.
  rewrite !factorial_half_even by (rewrite ?Z.even_sub, ?Hp, ?Hq, ?Hk; done || lia).
  rsimpl. rewrite !cmul_cint, !cint_crat.
  pose proof (zfact_pos (Z.to_nat (q / 2))).
  pose proof (zfact_pos (Z.to_nat ((k - p) / 2))).
  pose proof (zfact_pos (Z.to_nat ((p - q) / 2))).
  rewrite ndiv_crat by (apply inject_Z_nonzero; nia). rsimpl. done.
Qed.

(** [SC] does not change when [q] is replaced by [p - q]: the powers of
    [x^2] and of [y^2] in [(1 - x^2 - y^2)^(k/2)] carry the same weights. *)
Lemma SC_symmetric (p q k : Z) :
  Z.even p = true -> Z.even q = true -> Z.even k = true ->
  0 <= q <= p -> p <= k ->
  SC p (p - q) k = SC p q k.
Proof.
  intros Hp Hq Hk Hqp Hpk.
  rewrite !SC_closed_form by (rewrite ?Z.even_sub, ?Hp, ?Hq; done || lia).
  do 2 f_equal. unfold SC_closed.
  replace (p - (p - q)) with q by lia.
  f_equal. f_equal. f_equal. lia.
Qed.

Lemma SC_positive (p q k : Z) :
  Z.even p = true -> Z.even q = true -> Z.even k = true ->
  0 <= q <= p -> p <= k ->
  (0 < SC_closed p q k)%Q.
Proof.
  intros _ _ _ _ _. unfold SC_closed.
  pose proof (zfact_pos (Z.to_nat (k / 2))).
  pose proof (zfact_pos (Z.to_nat (q / 2))).
  pose proof (zfact_pos (Z.to_nat ((k - p) / 2))).
  pose proof (zfact_pos (Z.to_nat ((p - q) / 2))).
  apply Qlt_shift_div_l.
  - unfold Qlt, inject_Z. simpl. nia.
  - unfold Qlt, Qmult, inject_Z. simpl. lia.
Qed.

(** ** The summands of [Y] *)

Lemma elem_of_range_parity (a b x : Z) :
  x ∈ range a b 2 -> a <= x < b /\ Z.even (x - a) = true.
Proof.
  intros H. apply elem_of_range in H as [Hb Hm]; [|lia].
  split; [done|]. rewrite Zeven_mod. by apply Z.eqb_eq.
Qed.

Section Ysummands.
Context (l ma j0 : Z) (sgn : Z -> Z -> Z) (I : pyobj -> Prop).
Hypothesis Hj0 : 0 <= j0 <= ma.
Hypothesis Hma : ma <= l.
Hypothesis Hsgn : forall j p, j0 <= j -> 0 <= p -> 0 <= sgn j p.
Hypothesis Hinit : I PyInt0.
Hypothesis Hstep : forall j k p q c res x sb sc,
  loop_indices l ma j0 j k p q c ->
  SB l ma j k = Ok (Fin sb) ->
  I res ->
  I (iadd res (eterm (cmul (cmul x sb) sc) (summand_mono ma j p q c))).

Lemma accumulate_indexed (j k p q kc : Z) (c : nat) (res : pyobj) :
  loop_indices l ma j0 j k p q c ->
  kc = k - Z.of_nat c ->
  I res ->
  exists res', accumulate (sgn j p) l ma j k p q kc c res = Ok res'
               /\ established I res'.
Proof.
  intros Hidx Hkc Hres.
  pose proof Hidx as (Hj & Hje & Hk & Hp & Hq & Hqp & Hc).
  assert (Z.even kc = true /\ p <= kc) as [Hkce Hpk].
  { destruct Hc as [(-> & He & Hle)|(-> & He & Hle)]; subst kc.
    - by rewrite Z.sub_0_r.
    - split; [|lia]. change (Z.of_nat 1) with 1. by rewrite Z.even_sub, He. }
  destruct (accumulate_value (sgn j p) l ma j k p q kc c res)
    as (x & sb & sc & Hsb & ->); [apply Hsgn; lia | lia | lia | done.. | lia |].
  eexists. split; [done|]. split; [|apply iadd_is_Sym].
  by apply (Hstep j k p q c res x sb sc).
Qed.

Lemma Yloops_indexed : exists e, Yloops l ma j0 sgn = Ok (Sym e) /\ I (Sym e).
Proof.
  assert (forall o, established I o -> I o) as HQI by (by intros o [? ?]).
  cut (exists o, Yloops l ma j0 sgn = Ok o /\ established I o).
  { intros (o & Ho & Hi & e & ->). eauto. }
  unfold Yloops.
  apply (for_in_post I (established I));
    [apply range_nonempty; lia | done | done |].
  intros j res Hj Hres.
  apply elem_of_range_parity in Hj as [Hj Hje].
  destruct (for_in_post I (established I) (range 0 (l - ma + 1) 2)
              (fun k res =>
                 for_in (range 0 (k + 1) 2) (fun p res =>
                   for_in (range 0 (p + 1) 2) (fun q res =>
                     accumulate (sgn j p) l ma j k p q k 0 res) res) res)
              res) as (res1 & -> & Hres1);
    [apply range_nonempty; lia | done | done | |].
  { intros k r Hk Hr. apply elem_of_range_even in Hk as [Hk Hke].
    apply (for_in_post I (established I));
      [apply range_nonempty; lia | done | done |].
    intros p r' Hp Hr'. apply elem_of_range_even in Hp as [Hp Hpe].
    apply (for_in_post I (established I));
      [apply range_nonempty; lia | done | done |].
    intros q r'' Hq Hr''. apply elem_of_range_even in Hq as [Hq Hqe].
    apply accumulate_indexed; [|simpl; lia|done].
    repeat split; try done; try lia. left. repeat split; [done|lia]. }
  cbn [mbind result_bind].
  apply (for_in_inv (established I)); [done|].
  intros k r Hk Hr. apply elem_of_range_odd in Hk as (Hk & Hke & Hko).
  apply (for_in_inv (established I)); [done|].
  intros p r' Hp Hr'. apply elem_of_range_even in Hp as [Hp Hpe].
  apply (for_in_inv (established I)); [done|].
  intros q r'' Hq Hr''. apply elem_of_range_even in Hq as [Hq Hqe].
  apply accumulate_indexed; [|simpl; lia|by apply HQI].
  repeat split; try done; try lia. right. repeat split; [done|lia].
Qed.
End Ysummands.

(** What holds of the integer [0] and is kept by every summand the loops
    add holds of [Y(l, m)]. *)
Lemma Y_indexed (I : pyobj -> Prop) (l m : Z) :
  - l <= m <= l ->
  I PyInt0 ->
  (forall j k p q c res x sb sc,
      loop_indices l (Z.abs m) (j_start m) j k p q c ->
      SB l (Z.abs m) j k = Ok (Fin sb) ->
      I res ->
      I (iadd res (eterm (cmul (cmul x sb) sc)
                     (summand_mono (Z.abs m) j p q c)))) ->
  exists e, Y l m = Ok (Sym e) /\ I (Sym e).
Proof.
  intros Hm Hinit Hstep. rewrite Y_Yloops. unfold j_start in Hstep.
  destruct (Z.leb_spec 0 m) as [Hpos|Hneg].
  - rewrite Z.abs_eq in Hstep by done.
    apply Yloops_indexed; try done; try lia.
    intros j p ? ?. apply Z.div_pos; lia.
  - apply Yloops_indexed; try done; try lia.
    intros j p ? ?. apply Z.div_pos; lia.
Qed.

Lemma eadd_empty_r (e : Expr) : eadd e ∅ = e.
Proof.
  apply map_eq. intros t. rewrite lookup_eadd, lookup_empty.
  by destruct (e !! t).
Qed.

Lemma eterm_empty (t : mono) : eterm ∅ t = ∅.
Proof. done. Qed.

Lemma lookup_iadd_Some (res : pyobj) (coef : Const) (t0 t : mono) (c : Const)
  (e' : Expr) :
  iadd res (eterm coef t0) = Sym e' -> e' !! t = Some c ->
  (exists e, res = Sym e /\ is_Some (e !! t)) \/ (t = t0 /\ coef <> ∅).
Proof.
  intros Hi Hc.
  assert (is_Some (eterm coef t0 !! t) -> t = t0 /\ coef <> ∅) as Ht.
  { rewrite lookup_eterm. case_decide; [|by intros [? ?]].
    intros [v Hv]. split; [done|]. intros ->. by rewrite cnorm_empty in Hv. }
  destruct res as [|e]; simpl in Hi; simplify_eq.
  - right. apply Ht. by rewrite Hc.
  - rewrite lookup_eadd in Hc.
    destruct (e !! t) eqn:E1; [left; eauto|].
    right. apply Ht. destruct (eterm coef t0 !! t); [done|].
    simpl in Hc. done.
Qed.

(** A property of the monomials of every summand whose weight [SB] is not
    zero is a property of the monomials of [Y(l, m)]. *)
Lemma Y_monomials (P : mono -> Prop) (l m : Z) :
  - l <= m <= l ->
  (forall j k p q c,
      loop_indices l (Z.abs m) (j_start m) j k p q c ->
      Z.even (l + Z.abs m + k) = true ->
      P (summand_mono (Z.abs m) j p q c)) ->
  exists e, Y l m = Ok (Sym e) /\ forall t c, e !! t = Some c -> P t.
Proof.
  intros Hm HP. apply (Y_indexed (monomials P)); [done | done |].
  intros j k p q c res x sb sc Hidx Hsb Hres.
  destruct (iadd res (eterm (cmul (cmul x sb) sc)
                        (summand_mono (Z.abs m) j p q c))) as [|e'] eqn:Hi;
    [done|].
  intros t v Hv.
  destruct (lookup_iadd_Some _ _ _ _ _ _ Hi Hv) as [(e & -> & [w Hw])|[-> Hne]].
  - by apply (Hres t w).
  - apply (HP j k p q c Hidx).
    pose proof Hidx as (Hj & _ & Hk & _).
    assert (0 <= j <= Z.abs m) as Hj' by (unfold j_start in Hj;
      destruct (0 <=? m); lia).
    destruct (SB_rational l (Z.abs m) j k) as (r & Hr & Hz); [lia..|].
    rewrite Hsb in Hr. simplify_eq.
    destruct (Z.even (l + Z.abs m + k)) eqn:E; [done|]. exfalso. apply Hne.
    assert (crat r = ∅) as ->; [|by rewrite cmul_empty_r, cmul_empty_l].
    apply crat_zero_iff, Hz. split; [|lia].
    replace (l + Z.abs m + k - 1) with (l + Z.abs m + k + (-1)) by lia.
    rewrite Z.even_add, E. done.
Qed.

Lemma Y_canonical (l m : Z) :
  - l <= m <= l ->
  exists e, Y l m = Ok (Sym e) /\ forall t c, e !! t = Some c -> c <> ∅.
Proof.
  intros Hm. apply (Y_indexed canonical); [done | done |].
  intros j k p q c res x sb sc _ _ Hres.
  set (coef := cmul (cmul x sb) sc). set (t0 := summand_mono (Z.abs m) j p q c).
  destruct res as [|e]; simpl.
  - intros t v. rewrite lookup_eterm. case_decide; [|done].
    unfold cnorm. destruct (is_zero coef) eqn:E; [done|].
    intros [= <-]. by apply is_zero_false.
  - intros t v. rewrite lookup_eadd, lookup_eterm.
    destruct (e !! t) as [w|] eqn:Ew.
    + case_decide; simpl.
      * unfold cnorm at 1. destruct (is_zero coef) eqn:E.
        -- intros [= <-]. by apply (Hres t w).
        -- unfold cnorm. destruct (is_zero (cadd w coef)) eqn:E2; [done|].
           intros [= <-]. by apply is_zero_false.
      * intros [= <-]. by apply (Hres t w).
    + case_decide; simpl; [|done].
      unfold cnorm. destruct (is_zero coef) eqn:E; [done|].
      intros [= <-]. by apply is_zero_false.
Qed.

(** ** The shape of [Y(l, m)] *)

Lemma summand_degree (l ma j0 j k p q : Z) (c : nat) :
  0 <= j0 -> loop_indices l ma j0 j k p q c ->
  Z.of_nat (degree (summand_mono ma j p q c)) = ma + p + Z.of_nat c
  /\ Z.of_nat (summand_mono ma j p q c).1.1 = ma - j + p - q
  /\ Z.of_nat (summand_mono ma j p q c).1.2 = j + q.
Proof.
  intros Hj0 (Hj & _ & Hk & _ & _ & Hqp & _).
  unfold degree, summand_mono. simpl. lia.
Qed.

Lemma Y_degree_parity_aux (l m : Z) :
  - l <= m <= l ->
  exists e, Y l m = Ok (Sym e)
            /\ forall t c, e !! t = Some c ->
                 (t.2 <= 1)%nat /\ Z.of_nat (degree t) <= l
                 /\ Z.even (Z.of_nat (degree t)) = Z.even l.
Proof.
  intros Hm. apply Y_monomials; [done|].
  intros j k p q c Hidx Hpar.
  destruct (summand_degree l (Z.abs m) (j_start m) j k p q c) as (Hd & _);
    [unfold j_start; destruct (0 <=? m); lia | done |].
  rewrite Hd.
  destruct Hidx as (Hj & _ & Hk & Hp & _ & Hqp & Hc).
  rewrite Z.even_add in Hpar.
  destruct Hc as [(-> & He & Hle)|(-> & He & Hle)]; simpl (_.2).
  - split; [lia|]. split; [lia|].
    rewrite Z.add_0_r, Z.even_add, Hp.
    rewrite He in Hpar. rewrite Z.even_add in Hpar.
    destruct (Z.even l), (Z.even (Z.abs m)); done.
  - split; [lia|]. split; [lia|].
    change (Z.of_nat 1) with 1. rewrite !Z.even_add, Hp.
    rewrite He in Hpar. rewrite Z.even_add in Hpar.
    destruct (Z.even l), (Z.even (Z.abs m)); done.
Qed.

Lemma Y_xy_parity_aux (l m : Z) :
  - l <= m <= l ->
  exists e, Y l m = Ok (Sym e)
            /\ forall t c, e !! t = Some c ->
                 Z.even (Z.of_nat t.1.2) = (0 <=? m)
                 /\ Z.even (Z.of_nat t.1.1) = Z.even (m + j_start m).
Proof.
  intros Hm. apply Y_monomials; [done|].
  intros j k p q c Hidx _.
  destruct (summand_degree l (Z.abs m) (j_start m) j k p q c) as (_ & Hx & Hy);
    [unfold j_start; destruct (0 <=? m); lia | done |].
  rewrite Hx, Hy.
  destruct Hidx as (Hj & Hje & Hk & Hp & Hq & Hqp & Hc).
  rewrite Z.even_sub in Hje.
  assert (Z.even (Z.abs m) = Z.even m) as Habs.
  { destruct (Z.abs_spec m) as [[_ ->]|[_ ->]]; [done|].
    by rewrite Z.even_opp. }
  repeat (rewrite Z.even_add || rewrite Z.even_sub).
  rewrite Hp, Hq, Habs.
  unfold j_start in *. destruct (0 <=? m); simpl in *;
    destruct (Z.even j), (Z.even m); done.
Qed.

Lemma Y_sectoral_aux (l m : Z) :
  Z.abs m = l ->
  exists e, Y l m = Ok (Sym e)
            /\ forall t c, e !! t = Some c ->
                 t.2 = 0%nat /\ Z.of_nat (degree t) = l.
Proof.
  intros Hm. apply Y_monomials; [lia|].
  intros j k p q c Hidx _.
  destruct (summand_degree l (Z.abs m) (j_start m) j k p q c) as (Hd & _);
    [unfold j_start; destruct (0 <=? m); lia | done |].
  rewrite Hd.
  destruct Hidx as (Hj & _ & Hk & Hp & _ & Hqp & Hc).
  assert (k = 0) as -> by lia.
  destruct Hc as [(-> & He & Hle)|(-> & He & Hle)]; [|done].
  simpl. lia.
Qed.

(** ** Pairs outside the valid range *)

Lemma range_empty_ge (a b s : Z) : 0 < s -> b <= a -> range a b s = [].
Proof.
  intros Hs Hba. unfold range.
  assert ((b - a + s - 1) / s <= 0) as H.
  { apply Z.lt_succ_r. apply Z.div_lt_upper_bound; lia. }
  by replace (Z.to_nat ((b - a + s - 1) / s)) with 0%nat by lia.
Qed.

Lemma for_in_skip {A St} (xs : list A) (body : A -> St -> result St) (s : St) :
  (forall x s, body x s = Ok s) -> for_in xs body s = Ok s.
Proof.
  intros H. induction xs as [|x xs IH]; simpl; [done|].
  by rewrite H.
Qed.

Lemma Y_out_of_range (l m : Z) : l < Z.abs m -> Y l m = Ok PyInt0.
Proof.
  intros Hl. rewrite Y_Yloops.
  assert (forall j0 sgn, Yloops l (Z.abs m) j0 sgn = Ok PyInt0) as H.
  { intros j0 sgn. unfold Yloops. apply for_in_skip. intros j res.
    rewrite !(range_empty_ge _ (l - Z.abs m + 1) 2) by lia. done. }
  destruct (Z.leb_spec 0 m).
  - assert (Z.abs m = m) as E by lia. rewrite <- E. apply H.
  - apply H.
Qed.

(** ** The coefficient lists of [p_Y] *)

Lemma subs_zero_canonical (e : Expr) :
  (forall c, e !! mono1 = Some c -> c <> ∅) ->
  subs_zero e = coefficient_of e mono1.
Proof.
  intros Hwf. apply map_eq. intros t. unfold coefficient_of.
  rewrite lookup_subs_zero, lookup_eterm. case_decide; [|done]. subst t.
  destruct (e !! mono1) as [c|] eqn:E; simpl; [|done].
  unfold cnorm. rewrite (proj2 (is_zero_false c)); [done|]. by apply Hwf.
Qed.

Lemma poly_basis_spec_not_1 (n : Z) : 1 <= n -> poly_basis_spec n <> mono1.
Proof.
  intros Hn E. destruct (poly_basis_spec_degree n) as [Hd _]; [lia|].
  rewrite E in Hd. change (degree mono1) with 0%nat in Hd.
  assert (1 <= Z.sqrt n); [|lia].
  apply Z.sqrt_le_square; lia.
Qed.

Lemma p_Y_entries_aux (l m lmax : Z) (e : Expr) :
  0 <= lmax -> Y l m = Ok (Sym e) ->
  (forall t c, e !! t = Some c -> c <> ∅) ->
  exists v, p_Y l m lmax = Ok v
            /\ length v = Z.to_nat ((lmax + 1) ^ 2)
            /\ forall n : nat, (n < length v)%nat ->
                 v !! n = Some (coefficient_of e (poly_basis_spec (Z.of_nat n))).
Proof.
  intros Hlmax He Hwf. unfold p_Y. rewrite He.
  cbn [mbind result_bind at_origin as_expr].
  assert (1 <= (lmax + 1) ^ 2) as HN by nia.
  destruct (for_in_range
              (fun i res =>
                 length res = Z.to_nat i
                 /\ forall n : nat, (n < length res)%nat ->
                      res !! n
                      = Some (coefficient_of e (poly_basis_spec (Z.of_nat n))))
              1 ((lmax + 1) ^ 2)
              (fun n res =>
                 t ← poly_basis n; c ← Coefficient (Sym e) t; Ok (res ++ [c]))
              [subs_zero e]) as (v & -> & Hlen & Hv); [done | | | eauto].
  - split; [done|]. intros [|n] Hn; [|simpl in Hn; lia]. simpl.
    rewrite subs_zero_canonical by (intros c; apply Hwf). done.
  - intros i res Hi [Hlen Hres]. rewrite poly_basis_value by lia.
    cbn [mbind result_bind].
    rewrite Coefficient_value by (apply poly_basis_spec_not_1; lia).
    cbn [mbind result_bind]. eexists. split; [done|]. split.
    + rewrite length_app, Hlen. simpl. lia.
    + intros n Hn. rewrite length_app in Hn. simpl in Hn.
      destruct (decide (n < length res)%nat) as [Hlt|Hge].
      * rewrite lookup_app_l by done. by apply Hres.
      * assert (n = length res) as -> by lia.
        rewrite lookup_app_r, Nat.sub_diag by lia. simpl.
        rewrite Hlen, Z2Nat.id by lia. done.
Qed.

Lemma p_Y_take (l m lmax lmax' : Z) :
  - l <= m <= l -> 0 <= lmax <= lmax' ->
  exists v v', p_Y l m lmax = Ok v /\ p_Y l m lmax' = Ok v'
               /\ v = take (Z.to_nat ((lmax + 1) ^ 2)) v'.
Proof.
  intros Hm Hlmax. destruct (Y_canonical l m Hm) as (e & He & Hwf).
  destruct (p_Y_entries_aux l m lmax e) as (v & Hv & Hlen & Hent); [lia|done..|].
  destruct (p_Y_entries_aux l m lmax' e) as (v' & Hv' & Hlen' & Hent');
    [lia|done..|].
  exists v, v'. split; [done|]. split; [done|].
  assert (Z.to_nat ((lmax + 1) ^ 2) <= Z.to_nat ((lmax' + 1) ^ 2))%nat by nia.
  apply list_eq. intros n.
  destruct (decide (n < Z.to_nat ((lmax + 1) ^ 2))%nat) as [Hlt|Hge].
  - rewrite lookup_take_lt by done.
    rewrite Hent, Hent' by lia. done.
  - rewrite lookup_ge_None_2 by lia.
    symmetry. apply lookup_ge_None_2. rewrite length_take. lia.
Qed.

Lemma poly_basis_spec_inj (i j : nat) :
  poly_basis_spec (Z.of_nat i) = poly_basis_spec (Z.of_nat j) -> i = j.
Proof.
  intros E. apply (f_equal mono_index) in E.
  rewrite !mono_index_poly_basis_spec in E by lia. lia.
Qed.

Lemma from_coeffs_lookup (v : list Expr) (t : mono) :
  from_coeffs v !! t
  = if decide ((t.2 <= 1)%nat /\ mono_index t < Z.of_nat (length v))
    then cnorm (default ∅ (default ∅ (v !! Z.to_nat (mono_index t)) !! mono1))
    else None.
Proof.
  unfold from_coeffs.
  set (f := fun (n : nat) (c : Expr) =>
              (poly_basis_spec (Z.of_nat n), default ∅ (c !! mono1))).
  assert (NoDup (imap f v).*1) as Hnd.
  { apply NoDup_alt. intros i j k Hi Hj.
    rewrite list_lookup_fmap, list_lookup_imap in Hi, Hj.
    destruct (v !! i) as [x|]; [|done]. destruct (v !! j) as [y|]; [|done].
    simpl in *. simplify_eq. by apply poly_basis_spec_inj. }
  pose proof (mono_index_bounds t) as Hb.
  case_decide as Hd.
  - destruct Hd as [Hz Hlt].
    destruct (lookup_lt_is_Some_2 v (Z.to_nat (mono_index t))) as [c Hc]; [lia|].
    rewrite Hc. simpl. apply lookup_esum_in; [done|].
    replace (t, default ∅ (c !! mono1))
      with (f (Z.to_nat (mono_index t)) c).
    + by apply elem_of_lookup_imap_2.
    + unfold f. rewrite Z2Nat.id by lia.
      by rewrite poly_basis_spec_mono_index.
  - apply lookup_esum_notin. intros Hin.
    apply list_elem_of_fmap in Hin as ([k c] & Hk & Hin). simpl in Hk. subst k.
    apply elem_of_lookup_imap_1 in Hin as (n & x & Hf & Hx).
    unfold f in Hf. simplify_eq. apply Hd.
    destruct (poly_basis_spec_degree (Z.of_nat n)) as [_ Hz]; [lia|].
    rewrite mono_index_poly_basis_spec by lia.
    apply lookup_lt_Some in Hx. split; [done|lia].
Qed.

Lemma coefficient_of_lookup (e : Expr) (t : mono) :
  coefficient_of e t !! mono1 = cnorm (default ∅ (e !! t)).
Proof. unfold coefficient_of. by rewrite lookup_eterm, decide_True. Qed.

Lemma cnorm_idemp (c : Const) : cnorm (default ∅ (cnorm c)) = cnorm c.
Proof. unfold cnorm. by destruct (is_zero c) eqn:E; simpl; rewrite ?E. Qed.

Lemma p_Y_sum_aux (l m lmax : Z) :
  0 <= l <= lmax -> - l <= m <= l ->
  exists e v, Y l m = Ok (Sym e) /\ p_Y l m lmax = Ok v /\ from_coeffs v = e.
Proof.
  intros Hl Hm. destruct (Y_canonical l m Hm) as (e & He & Hwf).
  destruct (Y_degree_parity_aux l m Hm) as (e' & He' & Hdeg).
  rewrite He in He'. simplify_eq.
  destruct (p_Y_entries_aux l m lmax e') as (v & Hv & Hlen & Hent);
    [lia|done..|].
  exists e', v. split; [done|]. split; [done|].
  apply map_eq. intros t. rewrite from_coeffs_lookup.
  pose proof (mono_index_bounds t) as Hb.
  case_decide as Hd.
  - destruct Hd as [Hz Hlt].
    rewrite Hent by lia. simpl. rewrite Z2Nat.id by lia.
    rewrite poly_basis_spec_mono_index by done.
    rewrite coefficient_of_lookup, cnorm_idemp.
    destruct (e' !! t) as [c|] eqn:E; simpl; [|done].
    unfold cnorm. rewrite (proj2 (is_zero_false c)); [done|]. by apply (Hwf t).
  - destruct (e' !! t) as [c|] eqn:E; [|done]. exfalso. apply Hd.
    destruct (Hdeg t c E) as (Hz & Hdl & _). split; [done|].
    rewrite Hlen. nia.
Qed.

(** ** The entries of [A1] *)

Lemma index_lm_bound (l m lmax : Z) :
  0 <= l <= lmax -> - l <= m <= l ->
  (Z.to_nat (index_lm l m) < Z.to_nat ((lmax + 1) ^ 2))%nat.
Proof. intros Hl Hm. unfold index_lm. nia. Qed.

Lemma A1_entries_aux (lmax : Z) (norm : Const) (l m : Z) (i : nat) :
  0 <= l <= lmax -> - l <= m <= l -> (i < Z.to_nat ((lmax + 1) ^ 2))%nat ->
  exists a e, A1 lmax norm = Ok a /\ Y l m = Ok (Sym e)
              /\ entry a i (Z.to_nat (index_lm l m))
                 = escale (coefficient_of e (poly_basis_spec (Z.of_nat i))) norm.
Proof.
  intros Hl Hm Hi.
  assert (0 <= lmax) as Hlmax by lia.
  pose proof (A1_value lmax norm Hlmax) as HA. cbv zeta in HA.
  destruct HA as (a & Ha & Hr & Hc & Hlen & Hent).
  destruct (Y_canonical l m Hm) as (e & He & Hwf).
  destruct (p_Y_entries_aux l m lmax e Hlmax He Hwf) as (v & Hv & Hvl & Hve).
  exists a, e. split; [done|]. split; [done|].
  unfold entry. rewrite Hc, Hent by (done || by apply index_lm_bound).
  simpl. rewrite (pcol_index lmax l m v) by (done || lia).
  rewrite Hve by lia. done.
Qed.

Lemma coefficient_of_None (e : Expr) (t : mono) :
  e !! t = None -> coefficient_of e t = ∅.
Proof. intros E. unfold coefficient_of. rewrite E. done. Qed.

Lemma escale_empty (c : Const) : escale ∅ c = ∅.
Proof. unfold escale. apply omap_empty. Qed.

Lemma A1_zero_entries_aux (lmax : Z) (norm : Const) (l m : Z) (i : nat) :
  0 <= l <= lmax -> - l <= m <= l -> (i < Z.to_nat ((lmax + 1) ^ 2))%nat ->
  l < Z.sqrt (Z.of_nat i) \/ Z.even (Z.sqrt (Z.of_nat i)) <> Z.even l ->
  exists a, A1 lmax norm = Ok a /\ entry a i (Z.to_nat (index_lm l m)) = ∅.
Proof.
  intros Hl Hm Hi Hz.
  destruct (A1_entries_aux lmax norm l m i Hl Hm Hi) as (a & e & Ha & He & Hent).
  exists a. split; [done|]. rewrite Hent.
  destruct (Y_degree_parity_aux l m Hm) as (e' & He' & Hdeg).
  rewrite He in He'. simplify_eq.
  rewrite coefficient_of_None; [apply escale_empty|].
  destruct (e' !! _) as [c|] eqn:E; [|done]. exfalso.
  destruct (Hdeg _ _ E) as (_ & Hd & Hp).
  destruct (poly_basis_spec_degree (Z.of_nat i)) as [Hs _]; [lia|].
  rewrite Hs in Hd, Hp. destruct Hz as [Hz|Hz]; [lia|done].
Qed.

Lemma A1_nested_aux (lmax lmax' : Z) (norm : Const) (i j : nat) :
  0 <= lmax <= lmax' ->
  (i < Z.to_nat ((lmax + 1) ^ 2))%nat -> (j < Z.to_nat ((lmax + 1) ^ 2))%nat ->
  exists a a', A1 lmax norm = Ok a /\ A1 lmax' norm = Ok a'
               /\ entry a i j = entry a' i j.
Proof.
  intros Hlmax Hi Hj.
  assert (0 <= lmax) as H0 by lia. assert (0 <= lmax') as H0' by lia.
  pose proof (A1_value lmax norm H0) as HA. cbv zeta in HA.
  destruct HA as (a & Ha & Hr & Hc & Hlen & Hent).
  pose proof (A1_value lmax' norm H0') as HA. cbv zeta in HA.
  destruct HA as (a' & Ha' & Hr' & Hc' & Hlen' & Hent').
  exists a, a'. split; [done|]. split; [done|].
  assert (Z.to_nat ((lmax + 1) ^ 2) <= Z.to_nat ((lmax' + 1) ^ 2))%nat by nia.
  unfold entry. rewrite Hc, Hc', Hent, Hent' by lia. simpl. f_equal.
  set (n := Z.of_nat j). set (l := Z.sqrt n).
  assert (0 <= n) as Hn by lia.
  pose proof (Z.sqrt_spec n Hn) as Hs. cbv zeta in Hs. unfold Z.succ in Hs.
  fold l in Hs.
  assert (0 <= l) as Hl0 by apply Z.sqrt_nonneg.
  assert (l <= lmax) as Hll.
  { assert (n < (lmax + 1) ^ 2) by lia. nia. }
  destruct (p_Y_take l (n - l * l - l) lmax lmax') as (v & v' & Hv & Hv' & E);
    [lia | lia |].
  unfold pcol. fold n. fold l. rewrite Hv, Hv', E.
  by rewrite lookup_take_lt.
Qed.

Lemma A1_negative_aux (lmax : Z) (norm : Const) :
  lmax < 0 ->
  A1 lmax norm = Ok (zeros ((lmax + 1) ^ 2) ((lmax + 1) ^ 2)).
Proof.
  intros Hl. unfold A1. rewrite range_empty_ge by lia.
  cbn [for_in mbind result_bind fst]. f_equal.
  unfold mscale, zeros. cbn [rows cols mat]. f_equal.
  rewrite fmap_replicate. by rewrite escale_empty.
Qed.

(** ** Outside of the range of the order *)

Lemma p_Y_out_of_range_aux (l m lmax : Z) :
  l < Z.abs m -> p_Y l m lmax = Raise AttributeError.
Proof. intros Hl. unfold p_Y. by rewrite Y_out_of_range. Qed.

(** ** Linearity of [Coefficient] *)


Lemma poly_basis_negative (n : Z) : n < 0 -> poly_basis n = Raise TypeError.
Proof.
  intros Hn. unfold poly_basis, floor_sqrt.
  by rewrite (proj2 (Z.ltb_lt n 0)).
Qed.

(** [Coefficient] at the term 1: [coeff(1)] keeps, in every summand, what
    has the rational factor 1, and the substitutions keep the constant term
    of that. *)
Lemma Coefficient_one_value (e : Expr) :
  Coefficient (Sym e) mono1 = Ok (unit_constant e).
Proof.
  unfold Coefficient, unit_constant. cbn [as_expr mbind result_bind].
  f_equal. unfold coeff. rewrite decide_True by done.
  apply map_eq. intros k. rewrite lookup_subs_zero.
  case_decide as Hk.
  - subst k. rewrite lookup_omap.
    destruct (e !! mono1 ≫= unit_summands); simpl.
    + by rewrite lookup_singleton_eq.
    + done.
  - destruct (e !! mono1 ≫= unit_summands); simpl.
    + by rewrite lookup_singleton_ne.
    + done.
Qed.

(** * The claims *)

(** C2. For lmax = 2 the inverse of A1(2) times the indicator vector of x^2,
    the monomial at index 4 of the polynomial basis, is
    [pi/3, 0, 0, 0, 0, 0, -sqrt(5)*pi/15, 0, sqrt(15)*pi/15], the entries
    standing at the positions of (0,0), (2,0) and (2,2) in the order of the
    pairs (l, m). *)
Theorem x2_coefficients :
  poly_basis 4 = Ok (2, 0, 0)%nat
  /\ ycoeffs [0; 0; 0; 0; 1; 0; 0; 0; 0]
     = Ok [surd_pi (1 # 3) 1; ∅; ∅; ∅; ∅; ∅; surd_pi (-1 # 15) 5; ∅;
           surd_pi (1 # 15) 15]
  /\ index_lm 0 0 = 0 /\ index_lm 2 0 = 6 /\ index_lm 2 2 = 8.
Proof. repeat split; vm_compute; reflexivity. Qed.

(** C3, as stated: the vector e_3 is the vector of the monomial x and the
    inverse of A1(2) sends it to a vector whose only non-zero entry is
    sqrt(3)*pi/3 in the slot of Y_{1,1}.  This fails: index 3 of the basis
    is the monomial y, and the non-zero entry of the image of e_3 stands in
    slot 1, that of Y_{1,-1}. *)
Lemma e3_is_not_x :
  poly_basis 3 = Ok (0, 1, 0)%nat
  /\ index_lm 1 1 = 3
  /\ index_lm 1 (-1) = 1
  /\ ycoeffs [0; 0; 0; 1; 0; 0; 0; 0; 0]
     = Ok [∅; surd_pi (1 # 3) 3; ∅; ∅; ∅; ∅; ∅; ∅; ∅]
  /\ ~ (exists v, ycoeffs [0; 0; 0; 1; 0; 0; 0; 0; 0] = Ok v
                  /\ v !! 3%nat = Some (surd_pi (1 # 3) 3)
                  /\ forall i, (i < 9)%nat -> i <> 3%nat -> v !! i = Some ∅).
Proof.
  assert (ycoeffs [0; 0; 0; 1; 0; 0; 0; 0; 0]
          = Ok [∅; surd_pi (1 # 3) 3; ∅; ∅; ∅; ∅; ∅; ∅; ∅]) as E
    by (vm_compute; reflexivity).
  split; [vm_compute; reflexivity|]. split; [reflexivity|].
  split; [reflexivity|]. split; [exact E|].
  intros (v & Hv & H3 & _).
  rewrite E in Hv. injection Hv as <-. revert H3.
  differ (fmap (M := option) is_zero).
Qed.

(** C3, amended: the monomial x stands at index 1 of the polynomial basis,
    and the inverse of A1(2) sends e_1 to the vector whose only non-zero
    entry is sqrt(3)*pi/3, in slot 3, the slot of Y_{1,1}.  Index 3 is the
    monomial y, and the inverse sends e_3 to the vector whose only non-zero
    entry is sqrt(3)*pi/3 in slot 1, the slot of Y_{1,-1}. *)
Theorem x_coefficients :
  poly_basis 1 = Ok (1, 0, 0)%nat
  /\ index_lm 1 1 = 3
  /\ ycoeffs [0; 1; 0; 0; 0; 0; 0; 0; 0]
     = Ok [∅; ∅; ∅; surd_pi (1 # 3) 3; ∅; ∅; ∅; ∅; ∅]
  /\ poly_basis 3 = Ok (0, 1, 0)%nat
  /\ index_lm 1 (-1) = 1
  /\ ycoeffs [0; 0; 0; 1; 0; 0; 0; 0; 0]
     = Ok [∅; surd_pi (1 # 3) 3; ∅; ∅; ∅; ∅; ∅; ∅; ∅].
Proof. repeat split; vm_compute; reflexivity. Qed.

(** C4. For lmax = 2 the inverse of A1(2) times the indicator vector
    [1,0,0,0,0,0,0,0,0] of the constant monomial is [pi,0,0,0,0,0,0,0,0]. *)
Theorem one_coefficients :
  poly_basis 0 = Ok mono1
  /\ ycoeffs [1; 0; 0; 0; 0; 0; 0; 0; 0]
     = Ok [cpi; ∅; ∅; ∅; ∅; ∅; ∅; ∅; ∅].
Proof. split; vm_compute; reflexivity. Qed.

(** C5. For every n >= 0, poly_basis(n) is x^i * y^j * z^k with
    l = floor(sqrt(n)), m = n - l^2 - l, mu = l - m, nu = l + m, and
    (i, j, k) = (mu/2, nu/2, 0) when nu is even, ((mu-1)/2, (nu-1)/2, 1)
    when nu is odd, the halves being exact: 2i + k = mu, 2j + k = nu and
    k = nu mod 2.  In particular poly_basis(0) = 1. *)
Theorem poly_basis_correct (n : Z) :
  0 <= n ->
  poly_basis n = Ok (poly_basis_spec n)
  /\ (let l := Z.sqrt n in
      let m := n - l ^ 2 - l in
      let t := poly_basis_spec n in
      2 * Z.of_nat t.1.1 + Z.of_nat t.2 = l - m
      /\ 2 * Z.of_nat t.1.2 + Z.of_nat t.2 = l + m
      /\ Z.of_nat t.2 = (l + m) mod 2)
  /\ poly_basis 0 = Ok mono1.
Proof.
  intros Hn. split; [by apply poly_basis_value|].
  split; [by apply poly_basis_spec_exact|]. reflexivity.
Qed.

Lemma poly_basis_correct_witness :
  0 <= 7 /\ poly_basis 7 = Ok (0, 1, 1)%nat.
Proof.
  split; [lia|]. apply (proj1 (poly_basis_correct 7 ltac:(lia))).
Defined.

(** C6, as stated: Y(l, m) vanishes at x = y = z = 0 whenever l > 0.  This
    fails for Y(2, 0), whose constant summand is sqrt(5)/(2*sqrt(pi)). *)
Lemma Y20_at_origin :
  - 2 <= 0 <= 2 /\ 0 < 2
  /\ Y 2 0 ≫= at_origin = Ok (eterm (cmono (1 # 2) 5 (-1)) mono1)
  /\ Y 2 0 ≫= at_origin <> Ok ∅.
Proof.
  split; [lia|]. split; [lia|]. split; [vm_compute; reflexivity|].
  differ result_zero.
Qed.

(** C6, amended: for every valid pair (l, m), Y(l, m) at x = y = z = 0 is 0
    whenever m <> 0 or l is odd, and is 1/(2*sqrt(pi)) when l = m = 0. *)
Theorem Y_at_origin (l m : Z) :
  - l <= m <= l ->
  m <> 0 \/ Z.odd l = true \/ l = 0 ->
  Y l m ≫= at_origin
  = Ok (if l =? 0 then eterm (cmono (1 # 2) 1 (-1)) mono1 else ∅).
Proof.
  intros Hm Hcase. destruct (Z.eqb_spec l 0) as [->|Hl].
  - assert (m = 0) as -> by lia. vm_compute. reflexivity.
  - destruct (Y_origin_free l m Hm) as (e & -> & He).
    { destruct Hcase as [?|[?|?]]; [by left | by right | done]. }
    cbn [mbind result_bind at_origin as_expr]. f_equal.
    by apply subs_zero_empty.
Qed.

Lemma Y_at_origin_witness :
  - 3 <= 0 <= 3 /\ (0 <> 0 \/ Z.odd 3 = true \/ 3 = 0)
  /\ Y 3 0 ≫= at_origin = Ok ∅.
Proof.
  split; [lia|]. split; [right; left; reflexivity|].
  apply (Y_at_origin 3 0); [lia | right; left; reflexivity].
Defined.

(** C7, as stated: SB returns 0 whenever a factorial of its ratio term is
    taken at a negative or non-integer argument.  This fails for
    SB(0, 0, 0, 0), where both factorials are taken at -1/2 and SB is 1, and
    for SB(2, 0, 0, 0), taken at 1/2 and -3/2, where SB is -1/2. *)
Lemma SB_half_integer :
  Z.odd (0 + 0 + 0 - 1) = true /\ 0 + 0 + 0 - 1 < 0
  /\ SB 0 0 0 0 = Ok (Fin (cint 1))
  /\ SB 2 0 0 0 = Ok (Fin (crat (-1 # 2)))
  /\ SB 0 0 0 0 <> Ok (Fin ∅).
Proof.
  split; [reflexivity|]. split; [lia|].
  split; [vm_compute; reflexivity|]. split; [vm_compute; reflexivity|].
  differ num_zero.
Qed.

(** C7, amended: for all arguments in the ranges of the loops
    (0 <= j <= m, 0 <= k <= l - m) SB returns an exact rational number and
    raises nothing; that number is 0 exactly when the factorials of its
    ratio are taken at integers and the lower one at a negative integer.
    Half-integer arguments are not invalid: they give a non-zero ratio. *)
Theorem SB_total (l m j k : Z) :
  0 <= j <= m -> 0 <= k <= l - m ->
  exists q : Q,
    SB l m j k = Ok (Fin (crat q))
    /\ ((q == 0)%Q <->
        Z.even (l + m + k - 1) = true /\ - l + m + k - 1 < 0).
Proof. apply SB_rational. Qed.

Lemma SB_total_witness :
  0 <= 0 <= 0 /\ 0 <= 1 <= 2 - 0
  /\ exists q : Q,
       SB 2 0 0 1 = Ok (Fin (crat q))
       /\ ((q == 0)%Q <->
           Z.even (2 + 0 + 1 - 1) = true /\ - 2 + 0 + 1 - 1 < 0).
Proof.
  split; [lia|]. split; [lia|]. apply (SB_total 2 0 0 1); lia.
Defined.

(** C8, as stated: row n of A1(lmax) is p_Y(l(n), m(n), lmax) times norm.
    This fails for lmax = 2 and n = 0: row 0 has sqrt(5)/pi in column 6,
    where norm * p_Y(0, 0, 2) has 0. *)
Lemma A1_rows_are_not_p_Y :
  exists a v,
    A1 2 norm_default = Ok a /\ p_Y 0 0 2 = Ok v
    /\ row_of a 0 !! 6%nat = Some (eterm (cmono 1 5 (-2)) mono1)
    /\ ((fun e => escale e norm_default) <$> v) !! 6%nat = Some ∅
    /\ row_of a 0 <> (fun e => escale e norm_default) <$> v.
Proof.
  destruct (A1_value 2 norm_default) as (a & Ha & Hr & Hc & Hlen & Hget); [lia|].
  change (Z.to_nat ((2 + 1) ^ 2)) with 9%nat in *.
  exists a, [eterm (cmono (1 # 2) 1 (-1)) mono1; ∅; ∅; ∅; ∅; ∅; ∅; ∅; ∅].
  assert (row_of a 0 !! 6%nat = Some (eterm (cmono 1 5 (-2)) mono1)) as H6.
  { unfold row_of, get_row. rewrite Hc.
    rewrite lookup_take_lt by lia. rewrite lookup_drop.
    rewrite (Hget 0%nat 6%nat) by lia. by_evaluation. }
  split; [done|]. split; [by_evaluation|].
  split; [done|]. split; [vm_compute; reflexivity|].
  intros E. rewrite E in H6. revert H6. differ (fmap (M := option) ezero).
Qed.

(** C8, amended: for every lmax >= 0 and every pair (l, m) with
    0 <= l <= lmax and -l <= m <= l, column n = l^2 + l + m of the square
    matrix A1(lmax, norm) of size (lmax+1)^2 is p_Y(l, m, lmax) multiplied
    entrywise by norm; n runs over the pairs in increasing-l then
    increasing-m order. *)
Theorem A1_columns (lmax : Z) (norm : Const) (l m : Z) :
  0 <= l <= lmax -> - l <= m <= l ->
  0 <= index_lm l m < (lmax + 1) ^ 2
  /\ (forall l' m', - l' <= m' <= l' -> l < l' \/ (l = l' /\ m < m') ->
      index_lm l m < index_lm l' m')
  /\ exists a v,
       A1 lmax norm = Ok a /\ p_Y l m lmax = Ok v
       /\ rows a = Z.to_nat ((lmax + 1) ^ 2)
       /\ cols a = Z.to_nat ((lmax + 1) ^ 2)
       /\ col_of a (Z.to_nat (index_lm l m))
          = (fun e => escale e norm) <$> v.
Proof.
  intros Hl Hm. split; [unfold index_lm; nia|]. split.
  - intros l' m' Hm' Hlt. unfold index_lm. nia.
  - destruct (A1_col_of_index lmax norm l m Hl Hm) as (a & v & Ha & Hv & Hcol).
    destruct (A1_value lmax norm) as (a' & Ha' & Hr & Hc & _); [lia|].
    rewrite Ha in Ha'. simplify_eq. eauto 10.
Qed.

Lemma A1_columns_witness :
  0 <= 1 <= 1 /\ - 1 <= 0 <= 1
  /\ 0 <= index_lm 1 0 < (1 + 1) ^ 2
  /\ (forall l' m', - l' <= m' <= l' -> 1 < l' \/ (1 = l' /\ 0 < m') ->
      index_lm 1 0 < index_lm l' m')
  /\ exists a v,
       A1 1 norm_default = Ok a /\ p_Y 1 0 1 = Ok v
       /\ rows a = Z.to_nat ((1 + 1) ^ 2)
       /\ cols a = Z.to_nat ((1 + 1) ^ 2)
       /\ col_of a (Z.to_nat (index_lm 1 0))
          = (fun e => escale e norm_default) <$> v.
Proof.
  split; [lia|]. split; [lia|]. apply (A1_columns 1 norm_default 1 0); lia.
Defined.

(** C9, as stated: for every target monomial, Coefficient returns the
    constant coefficient of that monomial.  This fails for the monomial 1:
    in 3 + x its coefficient is 3 and Coefficient returns 0, and in
    Y(0, 0) = 1/(2*sqrt(pi)) it returns 0 as well. *)
Lemma Coefficient_of_one :
  let e := eadd (eterm (cint 3) mono1) (eterm (cint 1) (1, 0, 0)%nat) in
  Coefficient (Sym e) mono1 = Ok ∅
  /\ coefficient_of e mono1 = eterm (cint 3) mono1
  /\ Coefficient (Sym e) mono1 <> Ok (coefficient_of e mono1)
  /\ exists y, Y 0 0 = Ok (Sym y)
               /\ Coefficient (Sym y) mono1 <> Ok (coefficient_of y mono1).
Proof.
  cbv zeta. split; [vm_compute; reflexivity|].
  split; [vm_compute; reflexivity|].
  split; [differ result_zero|].
  eexists. split; [vm_compute; reflexivity|]. differ result_zero.
Qed.

(** C9, amended: for every expanded polynomial expression, a sum of
    constant multiples of distinct monomials x^i y^j z^k with k <= 1, and
    every target monomial x^i y^j z^k with k <= 1 other than the constant
    monomial 1, Coefficient returns the constant coefficient of that
    monomial, an expression in which no symbol occurs.  For the monomial 1
    it returns the summands of the constant term whose rational factor
    is 1. *)
Theorem Coefficient_correct (e : Expr) (t : mono) :
  z_linear e -> (t.2 <= 1)%nat -> t <> mono1 ->
  Coefficient (Sym e) t = Ok (coefficient_of e t)
  /\ is_constant (coefficient_of e t)
  /\ Coefficient (Sym e) mono1 = Ok (unit_constant e).
Proof.
  intros _ _ Ht. split; [by apply Coefficient_value|].
  split; [|apply Coefficient_one_value].
  intros k c Hk. unfold coefficient_of in Hk.
  rewrite lookup_eterm in Hk. by case_decide.
Qed.

Lemma Coefficient_correct_witness :
  z_linear (eadd (eterm (cint 3) (2, 0, 0)%nat) (eterm (cint 5) (2, 1, 1)%nat))
  /\ ((2, 0, 0).2 <= 1)%nat
  /\ (2, 0, 0)%nat <> mono1
  /\ Coefficient
       (Sym (eadd (eterm (cint 3) (2, 0, 0)%nat) (eterm (cint 5) (2, 1, 1)%nat)))
       (2, 0, 0)%nat
     = Ok (eterm (cint 3) mono1).
Proof.
  assert (z_linear (eadd (eterm (cint 3) (2, 0, 0)%nat)
                         (eterm (cint 5) (2, 1, 1)%nat))) as Hz
    by (unfold z_linear; by_evaluation).
  split; [exact Hz|]. split; [simpl; lia|]. split; [discriminate|].
  apply (proj1 (Coefficient_correct
                  (eadd (eterm (cint 3) (2, 0, 0)%nat)
                        (eterm (cint 5) (2, 1, 1)%nat))
                  (2, 0, 0)%nat Hz ltac:(simpl; lia) ltac:(discriminate))).
Defined.

(** C10. For every valid (l, m) with 0 <= l <= lmax and -l <= m <= l,
    p_Y(l, m, lmax) returns (lmax+1)^2 entries, and every entry, hence every
    entry of A1(lmax), is a constant: no x, y or sqrt(1 - x^2 - y^2) occurs
    in it. *)
Theorem p_Y_constant (l m lmax : Z) (norm : Const) :
  0 <= l <= lmax -> - l <= m <= l ->
  (exists v, p_Y l m lmax = Ok v
             /\ length v = Z.to_nat ((lmax + 1) ^ 2)
             /\ Forall is_constant v)
  /\ (exists a, A1 lmax norm = Ok a /\ Forall is_constant (mat a)).
Proof.
  intros Hl Hm. split.
  - apply p_Y_value; lia.
  - apply A1_constant. lia.
Qed.

Lemma p_Y_constant_witness :
  0 <= 1 <= 2 /\ - 1 <= -1 <= 1
  /\ (exists v, p_Y 1 (-1) 2 = Ok v
                /\ length v = Z.to_nat ((2 + 1) ^ 2)
                /\ Forall is_constant v)
  /\ (exists a, A1 2 norm_default = Ok a /\ Forall is_constant (mat a)).
Proof.
  split; [lia|]. split; [lia|]. apply (p_Y_constant 1 (-1) 2 norm_default); lia.
Defined.

(** * Further properties of the notebook's functions *)

(** ** [poly_basis] *)

(** X1. For every n >= 0, poly_basis(n) is a monomial x^i y^j z^k whose total
    degree i + j + k is floor(sqrt(n)) and in which z occurs at most once. *)
Theorem poly_basis_degree (n : Z) :
  0 <= n ->
  exists t, poly_basis n = Ok t
            /\ Z.of_nat (degree t) = Z.sqrt n /\ (t.2 <= 1)%nat.
Proof.
  intros Hn. exists (poly_basis_spec n). split; [by apply poly_basis_value|].
  by apply poly_basis_spec_degree.
Qed.

Lemma poly_basis_degree_witness :
  0 <= 7
  /\ exists t, poly_basis 7 = Ok t
               /\ Z.of_nat (degree t) = Z.sqrt 7 /\ (t.2 <= 1)%nat.
Proof. split; [lia|]. apply (poly_basis_degree 7); lia. Defined.

(** X2. The index is read back from the monomial: for n >= 0 and
    poly_basis(n) = x^i y^j z^k, n = d^2 + d + (j - i) with d = i + j + k.  So
    poly_basis returns different monomials at different indices. *)
Theorem poly_basis_index (n : Z) :
  0 <= n -> exists t, poly_basis n = Ok t /\ mono_index t = n.
Proof.
  intros Hn. exists (poly_basis_spec n). split; [by apply poly_basis_value|].
  by apply mono_index_poly_basis_spec.
Qed.

Lemma poly_basis_index_witness :
  0 <= 5 /\ exists t, poly_basis 5 = Ok t /\ mono_index t = 5.
Proof. split; [lia|]. apply (poly_basis_index 5); lia. Defined.

(** X3. Every monomial x^i y^j z^k with k <= 1 is returned by poly_basis, at
    the index d^2 + d + (j - i) with d = i + j + k. *)
Theorem poly_basis_onto (t : mono) :
  (t.2 <= 1)%nat -> poly_basis (mono_index t) = Ok t.
Proof.
  intros Ht. pose proof (mono_index_bounds t).
  rewrite poly_basis_value by lia. f_equal.
  by apply poly_basis_spec_mono_index.
Qed.

Lemma poly_basis_onto_witness :
  ((2, 1, 1).2 <= 1)%nat
  /\ poly_basis (mono_index (2, 1, 1)%nat) = Ok (2, 1, 1)%nat.
Proof.
  split; [simpl; lia|]. apply (poly_basis_onto (2, 1, 1)%nat). simpl. lia.
Defined.

(** X4. poly_basis(n) raises TypeError exactly for the negative n, where
    floor(sqrt(n)) is not a real number. *)
Theorem poly_basis_raises (n : Z) :
  poly_basis n = Raise TypeError <-> n < 0.
Proof.
  split; [|apply poly_basis_negative].
  intros E. destruct (Z.lt_ge_cases n 0) as [|Hn]; [done|].
  rewrite poly_basis_value in E by done. discriminate E.
Qed.

Lemma poly_basis_raises_witness : poly_basis (-3) = Raise TypeError.
Proof. apply (proj2 (poly_basis_raises (-3))). lia. Defined.

(** ** The constants [SA], [SB] and [SC] *)

(** X5. For -l <= m <= l, SA(l, m) is a constant other than 0 whose square
    is (2 - delta(m, 0)) (2 l + 1) (l - m)! / (4 pi (l + m)!). *)
Theorem SA_squared (l m : Z) :
  0 <= l - m -> 0 <= l + m ->
  exists sa, SA l m = Ok (Fin sa)
             /\ sa <> ∅
             /\ cmul sa sa = cmono (SA_radicand l m) 1 (-2).
Proof. apply SA_square. Qed.

Lemma SA_squared_witness :
  0 <= 2 - 1 /\ 0 <= 2 + 1
  /\ exists sa, SA 2 1 = Ok (Fin sa)
                /\ sa <> ∅
                /\ cmul sa sa = cmono (SA_radicand 2 1) 1 (-2).
Proof. split; [lia|]. split; [lia|]. apply (SA_squared 2 1); lia. Defined.

(** X6. On the indices of the loops of Y, 0 <= j <= m and 0 <= k <= l - m,
    SB(l, m, j, k) is the rational number
    2^l m! / (j! k! (m - j)! (l - m - k)!) times the falling factorial
    a (a - 1) ... (a - l + 1) of a = (l + m + k - 1) / 2: the quotient of the
    two factorials at half-integers is that product, and it is 0 when the
    lower factorial is taken at a negative integer. *)
Theorem SB_falling (l m j k : Z) :
  0 <= j <= m -> 0 <= k <= l - m ->
  SB l m j k = Ok (Fin (crat (SB_closed l m j k))).
Proof. apply SB_closed_form. Qed.

Lemma SB_falling_witness :
  0 <= 1 <= 1 /\ 0 <= 2 <= 3 - 1
  /\ SB 3 1 1 2 = Ok (Fin (crat (SB_closed 3 1 1 2))).
Proof. split; [lia|]. split; [lia|]. apply (SB_falling 3 1 1 2); lia. Defined.

(** X7. For even p, q, k with 0 <= q <= p <= k, SC(p, q, k) is the positive
    rational number (k/2)! / ((q/2)! ((k - p)/2)! ((p - q)/2)!). *)
Theorem SC_trinomial (p q k : Z) :
  Z.even p = true -> Z.even q = true -> Z.even k = true ->
  0 <= q <= p -> p <= k ->
  SC p q k = Ok (Fin (crat (SC_closed p q k))) /\ (0 < SC_closed p q k)%Q.
Proof.
  intros Hp Hq Hk Hqp Hpk. split.
  - by apply SC_closed_form.
  - by apply SC_positive.
Qed.

Lemma SC_trinomial_witness :
  Z.even 4 = true /\ Z.even 2 = true /\ Z.even 6 = true
  /\ 0 <= 2 <= 4 /\ 4 <= 6
  /\ SC 4 2 6 = Ok (Fin (crat (SC_closed 4 2 6))) /\ (0 < SC_closed 4 2 6)%Q.
Proof.
  split; [reflexivity|]. split; [reflexivity|]. split; [reflexivity|].
  split; [lia|]. split; [lia|].
  apply (SC_trinomial 4 2 6); reflexivity || lia.
Defined.

(** X8. SC(p, q, k) does not change when q is replaced by p - q. *)
Theorem SC_mirror (p q k : Z) :
  Z.even p = true -> Z.even q = true -> Z.even k = true ->
  0 <= q <= p -> p <= k ->
  SC p (p - q) k = SC p q k.
Proof. apply SC_symmetric. Qed.

Lemma SC_mirror_witness :
  Z.even 4 = true /\ Z.even 0 = true /\ Z.even 6 = true
  /\ 0 <= 0 <= 4 /\ 4 <= 6
  /\ SC 4 (4 - 0) 6 = SC 4 0 6.
Proof.
  split; [reflexivity|]. split; [reflexivity|]. split; [reflexivity|].
  split; [lia|]. split; [lia|].
  apply (SC_mirror 4 0 6); reflexivity || lia.
Defined.

(** ** The harmonics [Y] *)

(** X9. Outside of -l <= m <= l no loop of Y adds a summand: Y(l, m) returns
    the Python integer 0 it started from, not a sympy expression. *)
Theorem Y_outside_order (l m : Z) : l < Z.abs m -> Y l m = Ok PyInt0.
Proof. apply Y_out_of_range. Qed.

Lemma Y_outside_order_witness : 1 < Z.abs (-2) /\ Y 1 (-2) = Ok PyInt0.
Proof. split; [simpl; lia|]. apply (Y_outside_order 1 (-2)). simpl. lia. Defined.

(** X10. For -l <= m <= l, every monomial x^i y^j z^k of Y(l, m) has
    k <= 1, total degree i + j + k at most l, and total degree of the parity
    of l. *)
Theorem Y_degree_parity (l m : Z) :
  - l <= m <= l ->
  exists e, Y l m = Ok (Sym e)
            /\ forall t c, e !! t = Some c ->
                 (t.2 <= 1)%nat /\ Z.of_nat (degree t) <= l
                 /\ Z.even (Z.of_nat (degree t)) = Z.even l.
Proof. apply Y_degree_parity_aux. Qed.

Lemma Y_degree_parity_witness :
  - 3 <= 1 <= 3
  /\ exists e, Y 3 1 = Ok (Sym e)
               /\ forall t c, e !! t = Some c ->
                    (t.2 <= 1)%nat /\ Z.of_nat (degree t) <= 3
                    /\ Z.even (Z.of_nat (degree t)) = Z.even 3.
Proof. split; [lia|]. apply (Y_degree_parity 3 1); lia. Defined.

(** X11. For -l <= m <= l, the exponent of y in every monomial of Y(l, m) is
    even for m >= 0 and odd for m < 0, and the exponent of x has the parity
    of m for m >= 0 and of m + 1 for m < 0. *)
Theorem Y_xy_parity (l m : Z) :
  - l <= m <= l ->
  exists e, Y l m = Ok (Sym e)
            /\ forall t c, e !! t = Some c ->
                 Z.even (Z.of_nat t.1.2) = (0 <=? m)
                 /\ Z.even (Z.of_nat t.1.1) = Z.even (m + j_start m).
Proof. apply Y_xy_parity_aux. Qed.

Lemma Y_xy_parity_witness :
  - 3 <= -2 <= 3
  /\ exists e, Y 3 (-2) = Ok (Sym e)
               /\ forall t c, e !! t = Some c ->
                    Z.even (Z.of_nat t.1.2) = (0 <=? -2)
                    /\ Z.even (Z.of_nat t.1.1) = Z.even (-2 + j_start (-2)).
Proof. split; [lia|]. apply (Y_xy_parity 3 (-2)); lia. Defined.

(** X12. For m = l or m = -l, Y(l, m) is a polynomial in x and y alone, and
    all its monomials have the total degree l. *)
Theorem Y_sectoral (l m : Z) :
  Z.abs m = l ->
  exists e, Y l m = Ok (Sym e)
            /\ forall t c, e !! t = Some c ->
                 t.2 = 0%nat /\ Z.of_nat (degree t) = l.
Proof. apply Y_sectoral_aux. Qed.

Lemma Y_sectoral_witness :
  Z.abs (-2) = 2
  /\ exists e, Y 2 (-2) = Ok (Sym e)
               /\ forall t c, e !! t = Some c ->
                    t.2 = 0%nat /\ Z.of_nat (degree t) = 2.
Proof. split; [reflexivity|]. apply (Y_sectoral 2 (-2)). reflexivity. Defined.

(** ** The coefficient lists [p_Y] *)

(** X13. Outside of -l <= m <= l, p_Y(l, m, lmax) raises AttributeError: Y
    has returned an int, which has no method subs. *)
Theorem p_Y_outside_order (l m lmax : Z) :
  l < Z.abs m -> p_Y l m lmax = Raise AttributeError.
Proof. apply p_Y_out_of_range_aux. Qed.

Lemma p_Y_outside_order_witness :
  0 < Z.abs 1 /\ p_Y 0 1 2 = Raise AttributeError.
Proof. split; [simpl; lia|]. apply (p_Y_outside_order 0 1 2). simpl. lia. Defined.

(** X14. For -l <= m <= l and lmax >= 0, entry n of p_Y(l, m, lmax) is the
    coefficient of the monomial poly_basis(n) in Y(l, m), for every n below
    (lmax + 1)^2, the entry 0 that is computed apart included. *)
Theorem p_Y_entries (l m lmax : Z) :
  - l <= m <= l -> 0 <= lmax ->
  exists e v, Y l m = Ok (Sym e) /\ p_Y l m lmax = Ok v
              /\ length v = Z.to_nat ((lmax + 1) ^ 2)
              /\ forall n : nat, (n < length v)%nat ->
                   v !! n
                   = Some (coefficient_of e (poly_basis_spec (Z.of_nat n))).
Proof.
  intros Hm Hlmax. destruct (Y_canonical l m Hm) as (e & He & Hwf).
  destruct (p_Y_entries_aux l m lmax e Hlmax He Hwf) as (v & Hv).
  by exists e, v.
Qed.

Lemma p_Y_entries_witness :
  - 2 <= 0 <= 2 /\ 0 <= 2
  /\ exists e v, Y 2 0 = Ok (Sym e) /\ p_Y 2 0 2 = Ok v
                 /\ length v = Z.to_nat ((2 + 1) ^ 2)
                 /\ forall n : nat, (n < length v)%nat ->
                      v !! n
                      = Some (coefficient_of e (poly_basis_spec (Z.of_nat n))).
Proof. split; [lia|]. split; [lia|]. apply (p_Y_entries 2 0 2); lia. Defined.

(** X15. The lists of p_Y for two bounds agree where both are defined: for
    0 <= lmax <= lmax', p_Y(l, m, lmax) is the list of the first
    (lmax + 1)^2 entries of p_Y(l, m, lmax'). *)
Theorem p_Y_prefix (l m lmax lmax' : Z) :
  - l <= m <= l -> 0 <= lmax <= lmax' ->
  exists v v', p_Y l m lmax = Ok v /\ p_Y l m lmax' = Ok v'
               /\ v = take (Z.to_nat ((lmax + 1) ^ 2)) v'.
Proof. apply p_Y_take. Qed.

Lemma p_Y_prefix_witness :
  - 1 <= 1 <= 1 /\ 0 <= 1 <= 3
  /\ exists v v', p_Y 1 1 1 = Ok v /\ p_Y 1 1 3 = Ok v'
                  /\ v = take (Z.to_nat ((1 + 1) ^ 2)) v'.
Proof. split; [lia|]. split; [lia|]. apply (p_Y_prefix 1 1 1 3); lia. Defined.

(** X16. For 0 <= l <= lmax and -l <= m <= l the list loses nothing: the sum
    of the entries of p_Y(l, m, lmax), each times its monomial poly_basis(n),
    is Y(l, m) again. *)
Theorem p_Y_reconstructs (l m lmax : Z) :
  0 <= l <= lmax -> - l <= m <= l ->
  exists e v, Y l m = Ok (Sym e) /\ p_Y l m lmax = Ok v /\ from_coeffs v = e.
Proof. apply p_Y_sum_aux. Qed.

Lemma p_Y_reconstructs_witness :
  0 <= 2 <= 2 /\ - 2 <= 1 <= 2
  /\ exists e v, Y 2 1 = Ok (Sym e) /\ p_Y 2 1 2 = Ok v /\ from_coeffs v = e.
Proof. split; [lia|]. split; [lia|]. apply (p_Y_reconstructs 2 1 2); lia. Defined.

(** ** The matrix [A1] *)

(** X17. A1(lmax) is block triangular, with a checkerboard of zeros: in the
    column of the pair (l, m), the entry of row i is 0 when the degree
    floor(sqrt(i)) of poly_basis(i) exceeds l, and when it differs from l in
    parity. *)
Theorem A1_block_triangular (lmax : Z) (norm : Const) (l m : Z) (i : nat) :
  0 <= l <= lmax -> - l <= m <= l -> Z.of_nat i < (lmax + 1) ^ 2 ->
  l < Z.sqrt (Z.of_nat i) \/ Z.even (Z.sqrt (Z.of_nat i)) <> Z.even l ->
  exists a, A1 lmax norm = Ok a /\ entry a i (Z.to_nat (index_lm l m)) = ∅.
Proof. intros Hl Hm Hi. apply A1_zero_entries_aux; [done | done | lia]. Qed.

Lemma A1_block_triangular_witness :
  0 <= 1 <= 2 /\ - 1 <= 0 <= 1 /\ Z.of_nat 4 < (2 + 1) ^ 2
  /\ (1 < Z.sqrt (Z.of_nat 4) \/ Z.even (Z.sqrt (Z.of_nat 4)) <> Z.even 1)
  /\ exists a, A1 2 norm_default = Ok a
               /\ entry a 4 (Z.to_nat (index_lm 1 0)) = ∅.
Proof.
  split; [lia|]. split; [lia|]. split; [simpl; lia|].
  split; [left; reflexivity|].
  apply (A1_block_triangular 2 norm_default 1 0 4);
    [lia | lia | simpl; lia | left; reflexivity].
Defined.

(** X18. The matrices for two bounds are nested: for 0 <= lmax <= lmax',
    A1(lmax) is the upper left block of A1(lmax'). *)
Theorem A1_nested (lmax lmax' : Z) (norm : Const) (i j : nat) :
  0 <= lmax <= lmax' ->
  Z.of_nat i < (lmax + 1) ^ 2 -> Z.of_nat j < (lmax + 1) ^ 2 ->
  exists a a', A1 lmax norm = Ok a /\ A1 lmax' norm = Ok a'
               /\ entry a i j = entry a' i j.
Proof. intros Hl Hi Hj. apply A1_nested_aux; [done | lia | lia]. Qed.

Lemma A1_nested_witness :
  0 <= 1 <= 2 /\ Z.of_nat 2 < (1 + 1) ^ 2 /\ Z.of_nat 3 < (1 + 1) ^ 2
  /\ exists a a', A1 1 norm_default = Ok a /\ A1 2 norm_default = Ok a'
                  /\ entry a 2 3 = entry a' 2 3.
Proof.
  split; [lia|]. split; [simpl; lia|]. split; [simpl; lia|].
  apply (A1_nested 1 2 norm_default 2 3); simpl; lia.
Defined.

(** X19. For lmax < 0 no column is filled, and A1(lmax) is the zero matrix
    with (lmax + 1)^2 rows and columns: the empty matrix for lmax = -1, and a
    square of zeros below. *)
Theorem A1_negative_lmax (lmax : Z) (norm : Const) :
  lmax < 0 ->
  A1 lmax norm = Ok (zeros ((lmax + 1) ^ 2) ((lmax + 1) ^ 2)).
Proof. apply A1_negative_aux. Qed.

Lemma A1_negative_lmax_witness :
  -3 < 0 /\ A1 (-3) norm_default = Ok (zeros ((-3 + 1) ^ 2) ((-3 + 1) ^ 2)).
Proof. split; [lia|]. apply (A1_negative_lmax (-3) norm_default). lia. Defined.

(** ** [Coefficient] *)


